(** * The order and table store of [src/context/AppContext.tsx]

    A shallow embedding of the React context provider [AppProvider]: the four
    pieces of state it holds ([tables], [orders], [cart], [orderType]) and the
    operations it hands to its consumers.

    How the source is read.

    - Every state change in the source goes through a [useState] setter.  A
      setter called with a function ([setCart((prevCart) => ...)]) applies
      that function to the latest pending value; a setter called with a value
      ([setCart([])]) replaces it.  The setters below are exactly that, over
      an explicit [State] record.
    - Three operations also read a state variable directly from the closure of
      the render they were created in: [createOrder] reads [cart],
      [updateOrderStatus] reads [orders], [addTable] reads [tables.length].
      These operations take that render snapshot as a separate argument
      [view].  A consumer that calls an operation of the current render gets
      [view] equal to the state the setters run on; this is [step].
    - No operation mutates an array or an object in place: every update builds
      new arrays with [map], [filter] or spread and new objects with spread.
      Arrays are therefore lists and objects are records, by value.
    - [number]: a JavaScript number is a double.  Quantities and chair counts
      are taken to be integers ([Z]) and prices rationals; prices and chair
      counts are only ever stored and copied.  Where the source computes,
      the result is rounded as a double rounds it ([nearestDouble]): the sum
      [quantity + 1] in [addToCart], the product and the sum in the id of a
      new order.  Values that are no integer (a quantity of 0.5, [NaN]) are
      outside this model.
    - [Math.random()] and the formatted wall-clock time are inputs of
      [createOrder], collected in [Env]. *)

From Stdlib Require Import ZArith QArith Qround Lqa DecimalString DecimalPos.
From stdpp Require Import base list strings.

Local Open Scope Z_scope.

(** ** Data model *)

Inductive OrderStatus := Processing | Done | Served | NotPickedUp.
Inductive OrderType := DineIn | TakeAway.
Inductive TableStatus := Available | Reserved.

Global Instance OrderStatus_eq_dec : EqDecision OrderStatus.
Proof. solve_decision. Defined.
Global Instance OrderType_eq_dec : EqDecision OrderType.
Proof. solve_decision. Defined.
Global Instance TableStatus_eq_dec : EqDecision TableStatus.
Proof. solve_decision. Defined.

Module CartItem.
Record t := mk {
  id : string;
  name : string;
  price : Q;
  quantity : Z;
  category : string
}.
(** [{ ...item, quantity: q }] *)
Definition with_quantity (item : t) (q : Z) : t :=
  mk (id item) (name item) (price item) q (category item).
End CartItem.

Module Table.
Record t := mk {
  id : string;
  name : string;
  chairs : Z;
  status : TableStatus
}.
(** [{ ...table, status }] *)
Definition with_status (table : t) (st : TableStatus) : t :=
  mk (id table) (name table) (chairs table) st.
End Table.

(** [Omit<Table, 'id'>], the argument of [addTable]. *)
Module NewTable.
Record t := mk {
  name : string;
  chairs : Z;
  status : TableStatus
}.
End NewTable.

Module Order.
Record t := mk {
  id : string;
  tableId : string;
  timestamp : string;
  items : list CartItem.t;
  status : OrderStatus;
  type : OrderType;
  duration : Z;
  chefId : string
}.
(** [{ ...order, status }] *)
Definition with_status (order : t) (st : OrderStatus) : t :=
  mk (id order) (tableId order) (timestamp order) (items order) st
     (type order) (duration order) (chefId order).
(** [{ ...order, chefId }] *)
Definition with_chefId (order : t) (c : string) : t :=
  mk (id order) (tableId order) (timestamp order) (items order)
     (status order) (type order) (duration order) c.
End Order.

(** The state of the provider: one field per [useState]. *)
Record State := mkState {
  tables : list Table.t;
  orders : list Order.t;
  cart : list CartItem.t;
  orderType : OrderType
}.

(** What [createOrder] takes from its environment: the draw of
    [Math.random()] and the string that
    [new Date().toLocaleTimeString([], ...)] returns. *)
Record Env := mkEnv {
  random : Q;
  now : string
}.

(** ** The [useState] setters *)

Definition setTables (f : list Table.t → list Table.t) (s : State) : State :=
  mkState (f (tables s)) (orders s) (cart s) (orderType s).

Definition setOrders (f : list Order.t → list Order.t) (s : State) : State :=
  mkState (tables s) (f (orders s)) (cart s) (orderType s).

Definition setCart (f : list CartItem.t → list CartItem.t) (s : State) : State :=
  mkState (tables s) (orders s) (f (cart s)) (orderType s).

Definition setOrderType (ty : OrderType) (s : State) : State :=
  mkState (tables s) (orders s) (cart s) ty.

(** ** Doubles

    Arithmetic on numbers rounds its exact result to the nearest double,
    the one with the even significand when two are equally near.  A double
    is [m * 2^k] with [m] below [2^53] and [k] at least [-1074]. *)

(** The exponent of a positive rational: the [e] with
    [2^e <= n/d < 2^(e+1)]. *)
Definition log2Floor (n d : positive) : Z :=
  let e0 := Z.log2 (Z.pos n) - Z.log2 (Z.pos d) in
  if 2 ^ Z.max e0 0 * Z.pos d <=? Z.pos n * 2 ^ Z.max (- e0) 0
  then e0 else e0 - 1.

(** The integer nearest to [N/D], the even one of two that are equally
    near ([N] not negative, [D] positive). *)
Definition roundTiesEven (N D : Z) : Z :=
  let f := N / D in
  let rem := N mod D in
  if 2 * rem <? D then f
  else if D <? 2 * rem then f + 1
  else if Z.even f then f else f + 1.

(** The double nearest to the positive rational [n/d]: with [k] the exponent
    of the last bit of a 53-bit significand (not below that of the
    subnormal numbers), [n/d] is rounded to a multiple of [2^k]. *)
Definition nearestDoublePos (n d : positive) : Q :=
  let k := Z.max (log2Floor n d) (-1022) - 52 in
  let up := 2 ^ Z.max k 0 in
  let dn := 2 ^ Z.max (- k) 0 in
  Qmake (roundTiesEven (Z.pos n * dn) (Z.pos d * up) * up) (Z.to_pos dn).

(** The double nearest to a rational of magnitude below [2^1024]. *)
Definition nearestDouble (x : Q) : Q :=
  match Qnum x with
  | 0 => 0%Q
  | Z.pos n => nearestDoublePos n (Qden x)
  | Z.neg n => (- nearestDoublePos n (Qden x))%Q
  end.

(** [a + b] on integer-valued doubles: the double nearest to the exact sum,
    an integer again. *)
Definition numberAdd (a b : Z) : Z :=
  Qfloor (nearestDouble (inject_Z (a + b))).

(** ** Strings of numbers *)

(** Template-literal conversion of an integer-valued number. *)
Definition numberToString (z : Z) : string :=
  NilZero.string_of_int (Z.to_int z).

(** [fill] repeated [n] times. *)
Fixpoint repeatString (n : nat) (fill : string) : string :=
  match n with
  | O => EmptyString
  | S n' => String.append fill (repeatString n' fill)
  end.

(** [str.padStart(maxLength, fill)]: [str] itself when it is long enough or
    [fill] is empty, otherwise [str] after as many characters of the repeated
    [fill] as are missing. *)
Definition padStart (maxLength : nat) (fill : string) (str : string) : string :=
  let stringLength := String.length str in
  if decide (maxLength ≤ stringLength)%nat then str
  else if decide (fill = EmptyString) then str
  else
    let fillLen := (maxLength - stringLength)%nat in
    String.append (String.substring 0 fillLen (repeatString fillLen fill)) str.

(** ** Updating the matching elements of an array

    [l.map((x) => P(x) ? g(x) : x)], the shape of every in-place update of
    the source. *)
Definition mapWhere {A : Type} (P : A → Prop) `{!∀ x, Decision (P x)}
    (g : A → A) (l : list A) : list A :=
  (λ x, if decide (P x) then g x else x) <$> l.

(** ** Cart operations *)

(** [prevCart.find((cartItem) => cartItem.id === id)] *)
Definition findCartItem (id : string) (l : list CartItem.t) : option CartItem.t :=
  snd <$> list_find (λ cartItem, CartItem.id cartItem = id) l.

Definition addToCartUpdater (item : CartItem.t) (prevCart : list CartItem.t)
  : list CartItem.t :=
  match findCartItem (CartItem.id item) prevCart with
  | Some existingItem =>
      mapWhere (λ cartItem, CartItem.id cartItem = CartItem.id item)
               (λ cartItem,
                  CartItem.with_quantity cartItem
                    (numberAdd (CartItem.quantity cartItem) 1))
               prevCart
  | None => prevCart ++ [CartItem.with_quantity item 1]
  end.

Definition addToCart (item : CartItem.t) : State → State :=
  setCart (addToCartUpdater item).

Definition removeFromCartUpdater (id : string) (prevCart : list CartItem.t)
  : list CartItem.t :=
  filter (λ item, CartItem.id item ≠ id) prevCart.

Definition removeFromCart (id : string) : State → State :=
  setCart (removeFromCartUpdater id).

Definition setQuantityUpdater (id : string) (quantity : Z)
    (prevCart : list CartItem.t) : list CartItem.t :=
  mapWhere (λ item, CartItem.id item = id)
           (λ item, CartItem.with_quantity item quantity)
           prevCart.

Definition updateItemQuantity (id : string) (quantity : Z) (s : State) : State :=
  if decide (quantity ≤ 0) then removeFromCart id s
  else setCart (setQuantityUpdater id quantity) s.

Definition clearCart : State → State :=
  setCart (λ _, []).

(** ** Table and order operations *)

Definition updateTableStatus (tableId : string) (st : TableStatus)
  : State → State :=
  setTables (mapWhere (λ table, Table.id table = tableId)
                      (λ table, Table.with_status table st)).

(** [`#${Math.floor(100 + Math.random() * 900)}`] *)
Definition newOrderId (env : Env) : string :=
  String.append "#"
    (numberToString
       (Qfloor (nearestDouble (100 + nearestDouble (random env * 900))))).

Definition newOrder (view : State) (env : Env) (tableId : string)
    (ty : OrderType) : Order.t :=
  {| Order.id := newOrderId env;
     Order.tableId := tableId;
     Order.timestamp := now env;
     Order.items := cart view;
     Order.status := Processing;
     Order.type := ty;
     Order.duration := 0;
     Order.chefId := EmptyString |}.

Definition createOrder (view : State) (env : Env) (tableId : string)
    (ty : OrderType) (s : State) : State :=
  if decide (length (cart view) = 0%nat) then s
  else
    let s1 := setOrders (λ prevOrders, prevOrders ++ [newOrder view env tableId ty]) s in
    let s2 := if decide (ty = DineIn)
              then updateTableStatus tableId Reserved s1
              else s1 in
    clearCart s2.

(** [orders.find((o) => o.id === orderId)] *)
Definition findOrder (orderId : string) (l : list Order.t) : option Order.t :=
  snd <$> list_find (λ o, Order.id o = orderId) l.

Definition updateOrderStatus (view : State) (orderId : string)
    (st : OrderStatus) (s : State) : State :=
  let s1 := setOrders (mapWhere (λ order, Order.id order = orderId)
                                (λ order, Order.with_status order st)) s in
  match findOrder orderId (orders view) with
  | Some order =>
      if decide (st = Served ∧ Order.type order = DineIn)
      then updateTableStatus (Order.tableId order) Available s1
      else s1
  | None => s1
  end.

Definition assignChef (orderId chefId : string) : State → State :=
  setOrders (mapWhere (λ order, Order.id order = orderId)
                      (λ order, Order.with_chefId order chefId)).

Definition newTable (view : State) (table : NewTable.t) : Table.t :=
  {| Table.id :=
       padStart 2 "0" (numberToString (Z.of_nat (length (tables view)) + 1));
     Table.name := NewTable.name table;
     Table.chairs := NewTable.chairs table;
     Table.status := NewTable.status table |}.

Definition addTable (view : State) (table : NewTable.t) : State → State :=
  setTables (λ prevTables, prevTables ++ [newTable view table]).

(** ** Calls made by consumers *)

Inductive Action :=
| SetOrderType (ty : OrderType)
| AddToCart (item : CartItem.t)
| RemoveFromCart (id : string)
| UpdateItemQuantity (id : string) (quantity : Z)
| ClearCart
| CreateOrder (env : Env) (tableId : string) (ty : OrderType)
| UpdateOrderStatus (orderId : string) (st : OrderStatus)
| AssignChef (orderId chefId : string)
| AddTable (table : NewTable.t)
| UpdateTableStatus (tableId : string) (st : TableStatus).

(** One call on the operations of the current render: what the closures read
    is the state the setters run on. *)
Definition step (a : Action) (s : State) : State :=
  match a with
  | SetOrderType ty => setOrderType ty s
  | AddToCart item => addToCart item s
  | RemoveFromCart id => removeFromCart id s
  | UpdateItemQuantity id quantity => updateItemQuantity id quantity s
  | ClearCart => clearCart s
  | CreateOrder env tableId ty => createOrder s env tableId ty s
  | UpdateOrderStatus orderId st => updateOrderStatus s orderId st s
  | AssignChef orderId chefId => assignChef orderId chefId s
  | AddTable table => addTable s table s
  | UpdateTableStatus tableId st => updateTableStatus tableId st s
  end.

(** One call on the operations of the render [view], while the setters run
    on [s]: what a handler does that makes a call after another call of the
    same render. *)
Definition call (view : State) (a : Action) (s : State) : State :=
  match a with
  | SetOrderType ty => setOrderType ty s
  | AddToCart item => addToCart item s
  | RemoveFromCart id => removeFromCart id s
  | UpdateItemQuantity id quantity => updateItemQuantity id quantity s
  | ClearCart => clearCart s
  | CreateOrder env tableId ty => createOrder view env tableId ty s
  | UpdateOrderStatus orderId st => updateOrderStatus view orderId st s
  | AssignChef orderId chefId => assignChef orderId chefId s
  | AddTable table => addTable view table s
  | UpdateTableStatus tableId st => updateTableStatus tableId st s
  end.

Definition run (l : list Action) (s : State) : State :=
  foldl (λ s a, step a s) s l.

(** The state of the first render, given the seed tables of
    [data/mockData]. *)
Definition initialState (initialTables : list Table.t) : State :=
  mkState initialTables [] [] DineIn.

Inductive reachable (initialTables : list Table.t) : State → Prop :=
| reachable_init : reachable initialTables (initialState initialTables)
| reachable_step a s :
    reachable initialTables s → reachable initialTables (step a s).

(** The calls that only concern the cart. *)
Definition cartAction (a : Action) : bool :=
  match a with
  | AddToCart _ | RemoveFromCart _ | UpdateItemQuantity _ _ | ClearCart => true
  | _ => false
  end.

(** The id that [addTable] computes, as a function of [tables.length]:
    [`${tables.length + 1}`.padStart(2, '0')]. *)
Definition nextTableId (count : nat) : string :=
  padStart 2 "0" (numberToString (Z.of_nat count + 1)).

(** ** Sample data *)

Definition soup : CartItem.t := CartItem.mk "i1" "Soup" 5 1 "Starter".
(** Same id as [soup], every other field different. *)
Definition broth : CartItem.t := CartItem.mk "i1" "Broth" 7 4 "Main".
Definition bread : CartItem.t := CartItem.mk "i2" "Bread" 2 1 "Side".

Definition seedTables : list Table.t :=
  [Table.mk "01" "Table 1" 4 Available; Table.mk "02" "Table 2" 2 Available].

(** A draw of one half (order id ["#550"]) at noon. *)
Definition noon : Env := mkEnv (1 # 2) "12:00".

(** The first render with [soup] added to the cart. *)
Definition soupInCart : State :=
  step (AddToCart soup) (initialState seedTables).

(** Two orders created with the same draw, and so the same id: a take-away
    order for table ["01"], then a dine-in order for table ["02"]. *)
Definition sameDrawTwice : list Action :=
  [AddToCart soup; CreateOrder noon "01" TakeAway;
   AddToCart bread; CreateOrder noon "02" DineIn].

Definition collidingOrders : State := run sameDrawTwice (initialState seedTables).

(** Two dine-in orders for table ["01"], with different ids (["#550"] and
    ["#325"]). *)
Definition twoDiners : State :=
  run [AddToCart soup; CreateOrder noon "01" DineIn;
       AddToCart bread; CreateOrder (mkEnv (1 # 4) "12:05") "01" DineIn]
      (initialState seedTables).

(** [soup] in the cart with its quantity set to [2^53]. *)
Definition maxedQuantity : State :=
  step (UpdateItemQuantity "i1" 9007199254740992) soupInCart.

(** The double [0.7], and the largest double below 1. *)
Definition draw07 : Q := 3152519739159347 # 4503599627370496.
Definition drawMax : Q := 9007199254740991 # 9007199254740992.

(** ** Checks of the definitions on small inputs *)

Example numberToString_ex : numberToString 10 = "10"%string ∧ numberToString 0 = "0"%string.
Proof. split; reflexivity. Qed.
Example padStart_ex : padStart 2 "0" "1" = "01"%string ∧ padStart 5 "ab" "x" = "ababx"%string.
Proof. split; reflexivity. Qed.
Example newOrderId_ex : newOrderId (mkEnv (1#2) "10:00") = "#550"%string.
Proof. reflexivity. Qed.
Example newOrderId_rounds :
  newOrderId (mkEnv draw07 "10:00") = "#730"%string
  ∧ newOrderId (mkEnv drawMax "10:00") = "#999"%string
  ∧ newOrderId (mkEnv 0 "10:00") = "#100"%string.
Proof. by vm_compute. Qed.
Example numberAdd_ex :
  numberAdd 1 1 = 2 ∧ numberAdd (-1) 1 = 0
  ∧ numberAdd (2 ^ 53 - 1) 1 = 2 ^ 53
  ∧ numberAdd (2 ^ 53) 1 = 2 ^ 53
  ∧ numberAdd (2 ^ 53 + 2) 1 = 2 ^ 53 + 4
  ∧ numberAdd (- 2 ^ 53) 1 = - 2 ^ 53 + 1.
Proof. by vm_compute. Qed.
Example nearestDouble_ex :
  Qeq (nearestDouble (1 # 10)) (3602879701896397 # 36028797018963968)
  ∧ Qeq (nearestDouble (1 # 2)) (1 # 2)
  ∧ Qeq (nearestDouble (7 # 10)) draw07
  ∧ Qeq (nearestDouble draw07) draw07.
Proof. by vm_compute. Qed.

(** ** Facts about [mapWhere] *)

Section map_where.
Context {A : Type} (P : A → Prop) `{!∀ x, Decision (P x)} (g : A → A).
Local Abbreviation mapWhere := (mapWhere P g).

Lemma mapWhere_length l : length (mapWhere l) = length l.
Proof. apply length_fmap. Qed.

Lemma mapWhere_lookup_hit l i x :
  l !! i = Some x → P x → mapWhere l !! i = Some (g x).
Proof.
  intros Hi HP. unfold mapWhere. rewrite list_lookup_fmap, Hi. simpl.
  by rewrite decide_True.
Qed.

Lemma mapWhere_lookup_miss l i x :
  l !! i = Some x → ¬ P x → mapWhere l !! i = Some x.
Proof.
  intros Hi HP. unfold mapWhere. rewrite list_lookup_fmap, Hi. simpl.
  by rewrite decide_False.
Qed.

Lemma mapWhere_absent l : (∀ x, x ∈ l → ¬ P x) → mapWhere l = l.
Proof.
  induction l as [|x l IH]; intros Hl; [done|].
  unfold mapWhere in *. cbn [fmap list_fmap].
  rewrite decide_False by (apply Hl; left).
  f_equal. apply IH. intros y Hy. apply Hl. by right.
Qed.

(** A projection that [g] leaves alone is left alone by the update. *)
Lemma mapWhere_proj {B : Type} (p : A → B) l :
  (∀ x, p (g x) = p x) → p <$> mapWhere l = p <$> l.
Proof.
  intros Hp. unfold mapWhere. rewrite <- list_fmap_compose.
  apply list_fmap_ext. intros i x _. simpl. by destruct (decide (P x)).
Qed.

Lemma mapWhere_Forall (Q : A → Prop) l :
  (∀ x, Q x → Q (g x)) → Forall Q l → Forall Q (mapWhere l).
Proof.
  intros Hg Hl. apply Forall_fmap. eapply Forall_impl; [exact Hl|].
  intros x Hx. simpl. destruct (decide (P x)); auto.
Qed.
End map_where.

(** ** Rounding to a double *)

Section doubles.
Lemma pow2_split (a b : Z) :
  0 ≤ a → 0 ≤ b →
  2 ^ a = 2 ^ Z.max (a - b) 0 * 2 ^ Z.min a b
  ∧ 2 ^ b = 2 ^ Z.max (- (a - b)) 0 * 2 ^ Z.min a b.
Proof.
  intros Ha Hb. rewrite <- !Z.pow_add_r by lia. split; f_equal; lia.
Qed.

(** [2^e <= n/d] and [n/d < 2^e], written without fractions. *)
Local Abbreviation pow2_le e n d :=
  (2 ^ Z.max e 0 * d ≤ n * 2 ^ Z.max (- e) 0).
Local Abbreviation lt_pow2 e n d :=
  (n * 2 ^ Z.max (- e) 0 < 2 ^ Z.max e 0 * d).

Lemma pow2_le_alt (a b n d : Z) :
  0 ≤ a → 0 ≤ b → pow2_le (a - b) n d ↔ 2 ^ a * d ≤ n * 2 ^ b.
Proof.
  intros Ha Hb.
  destruct (pow2_split a b Ha Hb) as [-> ->].
  assert (0 < 2 ^ Z.min a b) by (apply Z.pow_pos_nonneg; lia).
  split; intros H1; nia.
Qed.

Lemma lt_pow2_alt (a b n d : Z) :
  0 ≤ a → 0 ≤ b → lt_pow2 (a - b) n d ↔ n * 2 ^ b < 2 ^ a * d.
Proof.
  intros Ha Hb.
  destruct (pow2_split a b Ha Hb) as [-> ->].
  assert (0 < 2 ^ Z.min a b) by (apply Z.pow_pos_nonneg; lia).
  split; intros H1; nia.
Qed.

Lemma log2Floor_spec (n d : positive) :
  pow2_le (log2Floor n d) (Z.pos n) (Z.pos d)
  ∧ lt_pow2 (log2Floor n d + 1) (Z.pos n) (Z.pos d).
Proof.
  unfold log2Floor.
  destruct (Z.log2_spec (Z.pos n) ltac:(lia)) as [Hn1 Hn2].
  destruct (Z.log2_spec (Z.pos d) ltac:(lia)) as [Hd1 Hd2].
  pose proof (Z.log2_nonneg (Z.pos n)) as Hna.
  pose proof (Z.log2_nonneg (Z.pos d)) as Hda.
  set (a := Z.log2 (Z.pos n)) in *. set (b := Z.log2 (Z.pos d)) in *.
  assert (0 < 2 ^ a) by (apply Z.pow_pos_nonneg; lia).
  assert (0 < 2 ^ b) by (apply Z.pow_pos_nonneg; lia).
  destruct (Z.leb_spec (2 ^ Z.max (a - b) 0 * Z.pos d)
                       (Z.pos n * 2 ^ Z.max (- (a - b)) 0)) as [Hle|Hgt].
  - split; [exact Hle|].
    replace (a - b + 1) with (Z.succ a - b) by lia.
    apply lt_pow2_alt; [lia|lia|]. nia.
  - split.
    + replace (a - b - 1) with (a - Z.succ b) by lia.
      apply pow2_le_alt; [lia|lia|]. nia.
    + replace (a - b - 1 + 1) with (a - b) by lia. exact Hgt.
Qed.

(** Bounds on the exponent from bounds on the number. *)
Lemma log2Floor_lt (c : Z) (n d : positive) :
  0 ≤ c → Z.pos n < 2 ^ c * Z.pos d → log2Floor n d < c.
Proof.
  intros Hc Hlt. destruct (log2Floor_spec n d) as [Hlo _].
  destruct (Z.lt_ge_cases (log2Floor n d) c) as [|Hge]; [done|exfalso].
  rewrite Z.max_l, Z.max_r, Z.pow_0_r in Hlo by lia.
  assert (2 ^ c ≤ 2 ^ log2Floor n d) by (apply Z.pow_le_mono_r; lia).
  nia.
Qed.

Lemma log2Floor_ge (c : Z) (n d : positive) :
  0 ≤ c → 2 ^ c * Z.pos d ≤ Z.pos n → c ≤ log2Floor n d.
Proof.
  intros Hc Hle. destruct (log2Floor_spec n d) as [_ Hup].
  destruct (Z.le_gt_cases c (log2Floor n d)) as [|Hlt]; [done|exfalso].
  assert (0 < 2 ^ Z.max (- (log2Floor n d + 1)) 0)
    by (apply Z.pow_pos_nonneg; lia).
  assert (2 ^ Z.max (log2Floor n d + 1) 0 ≤ 2 ^ c)
    by (apply Z.pow_le_mono_r; lia).
  nia.
Qed.

Lemma roundTiesEven_le (N D K : Z) :
  0 < D → 2 * N < (2 * K + 1) * D → roundTiesEven N D ≤ K.
Proof.
  intros HD HN. unfold roundTiesEven.
  pose proof (Z.div_mod N D ltac:(lia)) as Hdm.
  pose proof (Z.mod_pos_bound N D HD) as Hrem.
  assert (N / D ≤ K) as Hf by nia.
  destruct (Z.ltb_spec (2 * (N mod D)) D); [done|].
  assert (N / D < K) by nia.
  destruct (D <? 2 * (N mod D)); [lia|]. destruct (Z.even (N / D)); lia.
Qed.

Lemma roundTiesEven_ge (N D K : Z) :
  0 < D → K * D ≤ N → K ≤ roundTiesEven N D.
Proof.
  intros HD HN. unfold roundTiesEven.
  assert (K ≤ N / D) by (apply Z.div_le_lower_bound; lia).
  destruct (2 * (N mod D) <? D); [done|].
  destruct (D <? 2 * (N mod D)); [lia|]. destruct (Z.even (N / D)); lia.
Qed.

Lemma nearestDoublePos_nonneg (n d : positive) : (0 <= nearestDoublePos n d)%Q.
Proof.
  unfold nearestDoublePos, Qle. simpl. rewrite Z.mul_1_r.
  apply Z.mul_nonneg_nonneg; [|apply Z.pow_nonneg; lia].
  apply roundTiesEven_ge.
  - assert (0 < 2 ^ Z.max (Z.max (log2Floor n d) (-1022) - 52) 0)
      by (apply Z.pow_pos_nonneg; lia). lia.
  - assert (0 < 2 ^ Z.max (- (Z.max (log2Floor n d) (-1022) - 52)) 0)
      by (apply Z.pow_pos_nonneg; lia). lia.
Qed.

(** Below 1024 the doubles are multiples of [2^-43] or finer: rounding does
    not cross a multiple [B * 2^-43] that is at least 512, and stays on it
    from less than half a step above. *)
Lemma nearestDoublePos_upper (n d : positive) (B : Z) :
  Z.pos n < 2 ^ 10 * Z.pos d →
  2 ^ 52 ≤ B →
  Z.pos n * 2 ^ 44 < (2 * B + 1) * Z.pos d →
  (nearestDoublePos n d <= B # 2 ^ 43)%Q.
Proof.
  intros H1024 HB Hhalf.
  pose proof (log2Floor_lt 10 n d ltac:(lia) H1024) as He.
  unfold nearestDoublePos.
  set (k := Z.max (log2Floor n d) (-1022) - 52).
  assert (k ≤ -43) as Hk by lia.
  rewrite (Z.max_r k 0), (Z.max_l (- k) 0), Z.pow_0_r by lia.
  set (j := - k - 43).
  assert (0 ≤ j) as Hj by lia.
  assert (2 ^ (- k) = 2 ^ 43 * 2 ^ j) as Hdn.
  { rewrite <- Z.pow_add_r by lia. f_equal. lia. }
  assert (0 < 2 ^ j) as Hpj by (apply Z.pow_pos_nonneg; lia).
  assert (roundTiesEven (Z.pos n * 2 ^ (- k)) (Z.pos d * 1) ≤ B * 2 ^ j) as HM.
  { apply roundTiesEven_le; [lia|]. rewrite Hdn.
    destruct (Z.eq_dec j 0) as [Hj0|Hj0].
    - rewrite Hj0, Z.pow_0_r. change (2 ^ 44) with (2 * 2 ^ 43) in Hhalf. lia.
    - assert (Z.pos n < 2 ^ 9 * Z.pos d) as H512.
      { destruct (Z.lt_ge_cases (Z.pos n) (2 ^ 9 * Z.pos d)) as [|Hge]; [done|].
        pose proof (log2Floor_ge 9 n d ltac:(lia) Hge). lia. }
      assert (Z.pos n * (2 ^ 43 * 2 ^ j) < 2 ^ 9 * Z.pos d * (2 ^ 43 * 2 ^ j))
        as Hn by (apply Z.mul_lt_mono_pos_r; lia).
      assert (2 ^ 52 * (2 ^ j * Z.pos d) ≤ B * (2 ^ j * Z.pos d))
        as HBd by (apply Z.mul_le_mono_nonneg_r; lia).
      change (2 ^ 52) with (2 ^ 9 * 2 ^ 43) in HBd.
      lia. }
  unfold Qle. simpl. rewrite Z2Pos.id by (rewrite Hdn; lia).
  rewrite Hdn in HM |- *. rewrite Z.mul_1_r.
  change (Z.pos (2 ^ 43)) with (2 ^ 43).
  apply (Z.mul_le_mono_nonneg_r _ _ (2 ^ 43)) in HM; lia.
Qed.

Lemma nearestDoublePos_lower (n d : positive) (C : Z) :
  Z.pos n < 2 ^ 10 * Z.pos d →
  C * Z.pos d ≤ Z.pos n →
  (inject_Z C <= nearestDoublePos n d)%Q.
Proof.
  intros H1024 HC.
  pose proof (log2Floor_lt 10 n d ltac:(lia) H1024) as He.
  unfold nearestDoublePos.
  set (k := Z.max (log2Floor n d) (-1022) - 52).
  assert (k ≤ -43) as Hk by lia.
  rewrite (Z.max_r k 0), (Z.max_l (- k) 0), Z.pow_0_r by lia.
  assert (0 < 2 ^ (- k)) as Hdn by (apply Z.pow_pos_nonneg; lia).
  assert (C * 2 ^ (- k) ≤ roundTiesEven (Z.pos n * 2 ^ (- k)) (Z.pos d * 1)) as HM.
  { apply roundTiesEven_ge; [lia|]. nia. }
  unfold Qle. simpl. rewrite Z2Pos.id by lia. lia.
Qed.

Lemma nearestDouble_nonneg (x : Q) : (0 <= x)%Q → (0 <= nearestDouble x)%Q.
Proof.
  destruct x as [[|n|n] d]; unfold nearestDouble; simpl; intros Hx.
  - done.
  - apply nearestDoublePos_nonneg.
  - by destruct Hx.
Qed.

Lemma nearestDouble_upper (x : Q) (B : Z) :
  (0 <= x)%Q → (x < 1024)%Q → 2 ^ 52 ≤ B →
  (x < (2 * B + 1) # 2 ^ 44)%Q →
  (nearestDouble x <= B # 2 ^ 43)%Q.
Proof.
  destruct x as [[|n|n] d]; unfold nearestDouble; simpl; intros Hx H1024 HB Hh.
  - unfold Qle. simpl. lia.
  - apply nearestDoublePos_upper; [|done|].
    + unfold Qlt in H1024. simpl in H1024. lia.
    + unfold Qlt in Hh. simpl in Hh. lia.
  - by destruct Hx.
Qed.

Lemma nearestDouble_lower (x : Q) (C : Z) :
  0 < C → (inject_Z C <= x)%Q → (x < 1024)%Q →
  (inject_Z C <= nearestDouble x)%Q.
Proof.
  destruct x as [[|n|n] d]; unfold nearestDouble; simpl; intros HC Hx H1024.
  - unfold Qle in Hx. simpl in Hx. lia.
  - apply nearestDoublePos_lower.
    + unfold Qlt in H1024. simpl in H1024. lia.
    + unfold Qle in Hx. simpl in Hx. lia.
  - unfold Qle in Hx. simpl in Hx. lia.
Qed.

Lemma roundTiesEven_1 (N : Z) : roundTiesEven N 1 = N.
Proof.
  unfold roundTiesEven. rewrite Z.mod_1_r, Z.div_1_r. reflexivity.
Qed.

(** An integer of magnitude at most [2^53] is a double. *)
Lemma nearestDoublePos_integer (n : positive) :
  Z.pos n ≤ 2 ^ 53 →
  ∃ P : positive, nearestDoublePos n 1 = (Z.pos n * Z.pos P) # P.
Proof.
  intros Hn.
  pose proof (log2Floor_ge 0 n 1 ltac:(lia) ltac:(lia)) as He0.
  assert (Z.pos n < 2 ^ 54 * 1) as Hn'
    by (apply Z.le_lt_trans with (2 ^ 53); [exact Hn|reflexivity]).
  pose proof (log2Floor_lt 54 n 1 ltac:(lia) Hn') as He1.
  destruct (Z.eq_dec (log2Floor n 1) 53) as [He|He].
  - destruct (log2Floor_spec n 1) as [Hlo _]. rewrite He in Hlo.
      rewrite Z.max_l, Z.max_r, Z.pow_0_r in Hlo by lia.
    assert (Z.pos n = Z.pos (2 ^ 53)) as Heq
      by (change (Z.pos (2 ^ 53)) with (2 ^ 53); lia).
    injection Heq as ->.
    exists 1%positive. reflexivity.
  - unfold nearestDoublePos.
    set (k := Z.max (log2Floor n 1) (-1022) - 52).
    assert (k ≤ 0) as Hk by lia.
    rewrite (Z.max_r k 0), (Z.max_l (- k) 0), Z.pow_0_r by lia.
    assert (0 < 2 ^ (- k)) as Hdn by (apply Z.pow_pos_nonneg; lia).
    exists (Z.to_pos (2 ^ (- k))).
    rewrite !Z.mul_1_r, roundTiesEven_1, Z2Pos.id by lia. reflexivity.
Qed.

Lemma numberAdd_exact (a b : Z) :
  - 2 ^ 53 ≤ a + b ≤ 2 ^ 53 → numberAdd a b = a + b.
Proof.
  intros Hab. unfold numberAdd.
  destruct (a + b) as [|n|n] eqn:Hz.
  - reflexivity.
  - change (nearestDouble (inject_Z (Z.pos n))) with (nearestDoublePos n 1).
    destruct (nearestDoublePos_integer n ltac:(lia)) as [P ->].
    unfold Qfloor. apply Z.div_mul. lia.
  - change (nearestDouble (inject_Z (Z.neg n)))
      with (- nearestDoublePos n 1)%Q.
    destruct (nearestDoublePos_integer n ltac:(lia)) as [P ->].
    change (Qfloor (- (Z.pos n * Z.pos P # P)))
      with ((Z.neg n * Z.pos P) / Z.pos P).
    apply Z.div_mul. lia.
Qed.

Lemma nearestDoublePos_ge_1 (n : positive) : (1 <= nearestDoublePos n 1)%Q.
Proof.
  pose proof (log2Floor_ge 0 n 1 ltac:(lia) ltac:(lia)) as He0.
  destruct (log2Floor_spec n 1) as [Hlo _].
  rewrite Z.max_l, Z.max_r, Z.pow_0_r in Hlo by lia.
  unfold nearestDoublePos.
  set (k := Z.max (log2Floor n 1) (-1022) - 52).
  assert (0 < 2 ^ Z.max k 0) as Hup by (apply Z.pow_pos_nonneg; lia).
  assert (0 < 2 ^ Z.max (- k) 0) as Hdn by (apply Z.pow_pos_nonneg; lia).
  assert (2 ^ Z.max (- k) 0
          ≤ roundTiesEven (Z.pos n * 2 ^ Z.max (- k) 0) (1 * 2 ^ Z.max k 0)
            * 2 ^ Z.max k 0) as HM.
  { destruct (Z.le_gt_cases k 0) as [Hk|Hk].
    - rewrite (Z.max_r k 0), Z.pow_0_r by lia.
      rewrite !Z.mul_1_r, roundTiesEven_1. nia.
    - rewrite (Z.max_r (- k) 0), Z.pow_0_r by lia.
      rewrite (Z.max_l k 0) in * by lia.
      assert (1 ≤ roundTiesEven (Z.pos n * 1) (1 * 2 ^ k)); [|nia].
      apply roundTiesEven_ge; [lia|].
      assert (2 ^ k ≤ 2 ^ log2Floor n 1) by (apply Z.pow_le_mono_r; lia).
      lia. }
  unfold Qle. simpl. rewrite Z2Pos.id by lia. lia.
Qed.

Lemma numberAdd_pos (a b : Z) : 0 < a + b → 0 < numberAdd a b.
Proof.
  intros Hab. unfold numberAdd.
  destruct (a + b) as [|n|n] eqn:Hz; try lia.
  change (nearestDouble (inject_Z (Z.pos n))) with (nearestDoublePos n 1).
  pose proof (Qfloor_resp_le _ _ (nearestDoublePos_ge_1 n)) as H.
  change (Qfloor 1) with 1 in H. lia.
Qed.
End doubles.

(** ** What [find] returns *)

Lemma findCartItem_None (id : string) (l : list CartItem.t) :
  findCartItem id l = None ↔ ∀ e, e ∈ l → CartItem.id e ≠ id.
Proof.
  unfold findCartItem. rewrite fmap_None, list_find_None, Forall_forall.
  done.
Qed.

Lemma findCartItem_is_Some (id : string) (l : list CartItem.t) :
  (∃ e, e ∈ l ∧ CartItem.id e = id) → is_Some (findCartItem id l).
Proof.
  intros (e & He & Hid).
  destruct (findCartItem id l) eqn:Hf; [by eexists|].
  rewrite findCartItem_None in Hf. by destruct (Hf e He).
Qed.

Lemma findOrder_None (orderId : string) (l : list Order.t) :
  findOrder orderId l = None ↔ ∀ o, o ∈ l → Order.id o ≠ orderId.
Proof.
  unfold findOrder. rewrite fmap_None, list_find_None, Forall_forall.
  done.
Qed.

(** [find] returns the first match: an element of the list with the id
    asked for, before which no element has that id. *)
Lemma findOrder_Some (orderId : string) (l : list Order.t) (o : Order.t) :
  findOrder orderId l = Some o ↔
  ∃ i, l !! i = Some o ∧ Order.id o = orderId ∧
       ∀ j o', l !! j = Some o' → (j < i)%nat → Order.id o' ≠ orderId.
Proof.
  unfold findOrder. rewrite fmap_Some. split.
  - intros ([i o'] & Hf & ->). apply list_find_Some in Hf as (Hi & Hid & Hlt).
    exists i. simpl. eauto.
  - intros (i & Hi & Hid & Hlt). exists (i, o). split; [|done].
    apply list_find_Some. eauto.
Qed.

(** ** The cart *)

Lemma addToCartUpdater_present (item : CartItem.t) (l : list CartItem.t) :
  (∃ e, e ∈ l ∧ CartItem.id e = CartItem.id item) →
  addToCartUpdater item l =
  mapWhere (λ c, CartItem.id c = CartItem.id item)
           (λ c, CartItem.with_quantity c (numberAdd (CartItem.quantity c) 1)) l.
Proof.
  intros H. apply findCartItem_is_Some in H as [e He].
  unfold addToCartUpdater. by rewrite He.
Qed.

Lemma addToCartUpdater_absent (item : CartItem.t) (l : list CartItem.t) :
  (∀ e, e ∈ l → CartItem.id e ≠ CartItem.id item) →
  addToCartUpdater item l = l ++ [CartItem.with_quantity item 1].
Proof.
  intros H. apply findCartItem_None in H.
  unfold addToCartUpdater. by rewrite H.
Qed.

Lemma addToCartUpdater_NoDup (item : CartItem.t) (l : list CartItem.t) :
  NoDup (CartItem.id <$> l) → NoDup (CartItem.id <$> addToCartUpdater item l).
Proof.
  intros Hnd. unfold addToCartUpdater.
  destruct (findCartItem (CartItem.id item) l) eqn:Hf.
  - by rewrite mapWhere_proj.
  - rewrite fmap_app. apply NoDup_app. split; [done|]. split.
    + intros x Hx Hx'. apply list_elem_of_singleton in Hx'. subst x.
      apply list_elem_of_fmap in Hx as (e & He1 & He2).
      rewrite findCartItem_None in Hf. by apply (Hf e He2).
    + apply NoDup_singleton.
Qed.

Lemma removeFromCartUpdater_NoDup (id : string) (l : list CartItem.t) :
  NoDup (CartItem.id <$> l) → NoDup (CartItem.id <$> removeFromCartUpdater id l).
Proof.
  unfold removeFromCartUpdater. induction l as [|x l IH]; [done|].
  rewrite fmap_cons, NoDup_cons. intros [Hx Hl].
  rewrite filter_cons. destruct (decide (CartItem.id x ≠ id)); [|by apply IH].
  rewrite fmap_cons, NoDup_cons. split; [|by apply IH].
  intros Hin. apply Hx.
  apply list_elem_of_fmap in Hin as (e & He1 & He2).
  apply list_elem_of_fmap. exists e. split; [done|].
  by apply list_elem_of_filter in He2 as [_ ?].
Qed.

Lemma setQuantityUpdater_NoDup (id : string) (q : Z) (l : list CartItem.t) :
  NoDup (CartItem.id <$> l) → NoDup (CartItem.id <$> setQuantityUpdater id q l).
Proof.
  intros Hnd. unfold setQuantityUpdater. by rewrite mapWhere_proj.
Qed.

(** The cart of a reachable state has one entry per id. *)
Lemma step_cart_NoDup (a : Action) (s : State) :
  NoDup (CartItem.id <$> cart s) → NoDup (CartItem.id <$> cart (step a s)).
Proof.
  intros Hnd. destruct a; simpl; try done.
  - by apply addToCartUpdater_NoDup.
  - by apply removeFromCartUpdater_NoDup.
  - unfold updateItemQuantity. destruct (decide (quantity ≤ 0)); simpl.
    + by apply removeFromCartUpdater_NoDup.
    + by apply setQuantityUpdater_NoDup.
  - apply NoDup_nil_2.
  - unfold createOrder. destruct (decide (length (cart s) = 0%nat)); [done|].
    simpl. apply NoDup_nil_2.
  - unfold updateOrderStatus.
    destruct (findOrder orderId (orders s)) as [o|]; [|done].
    by destruct (decide (st = Served ∧ Order.type o = DineIn)).
Qed.

Lemma reachable_cart_NoDup (initialTables : list Table.t) (s : State) :
  reachable initialTables s → NoDup (CartItem.id <$> cart s).
Proof.
  induction 1 as [|a s _ IH]; [apply NoDup_nil_2|by apply step_cart_NoDup].
Qed.

(** *** Claim C3 *)

(** C3, as amended.  [addToCart(item)] touches the cart only.  When the cart
    has an entry with the id of [item], every such entry keeps its place, id,
    name, price and category, and its quantity, an integer, becomes the
    double sum [quantity + 1]: that is the quantity increased by one when the
    quantity is at least [-2^53] and below [2^53].  All other entries are as
    they were, and nothing of [item] but its id matters.  When the cart has
    no such entry, [item] is appended with quantity 1, whatever quantity it
    came with.  Adding an item and then an item of the same id to the empty
    cart gives one entry of quantity 2 with the name, price and category of
    the first.  The update keeps ids distinct, and the cart of a reachable
    state never has two entries with one id. *)
Theorem addToCart_spec (s : State) (item : CartItem.t) :
  let s' := step (AddToCart item) s in
  (tables s' = tables s ∧ orders s' = orders s ∧ orderType s' = orderType s)
  ∧ ((∃ e, e ∈ cart s ∧ CartItem.id e = CartItem.id item) →
      length (cart s') = length (cart s)
      ∧ (∀ i e, cart s !! i = Some e → CartItem.id e = CartItem.id item →
           - 2 ^ 53 ≤ CartItem.quantity e < 2 ^ 53 →
           cart s' !! i =
           Some (CartItem.mk (CartItem.id e) (CartItem.name e) (CartItem.price e)
                             (CartItem.quantity e + 1) (CartItem.category e)))
      ∧ (∀ i e, cart s !! i = Some e → CartItem.id e = CartItem.id item →
           cart s' !! i =
           Some (CartItem.mk (CartItem.id e) (CartItem.name e) (CartItem.price e)
                             (numberAdd (CartItem.quantity e) 1)
                             (CartItem.category e)))
      ∧ (∀ i e, cart s !! i = Some e → CartItem.id e ≠ CartItem.id item →
           cart s' !! i = Some e)
      ∧ (∀ item', CartItem.id item' = CartItem.id item →
           step (AddToCart item') s = s'))
  ∧ ((∀ e, e ∈ cart s → CartItem.id e ≠ CartItem.id item) →
      cart s' = cart s ++
        [CartItem.mk (CartItem.id item) (CartItem.name item) (CartItem.price item)
                     1 (CartItem.category item)])
  ∧ (cart s = [] →
      ∀ item2, CartItem.id item2 = CartItem.id item →
        cart (step (AddToCart item2) s') =
        [CartItem.mk (CartItem.id item) (CartItem.name item) (CartItem.price item)
                     2 (CartItem.category item)])
  ∧ (NoDup (CartItem.id <$> cart s) → NoDup (CartItem.id <$> cart s'))
  ∧ (∀ initialTables, reachable initialTables s →
      NoDup (CartItem.id <$> cart s) ∧ NoDup (CartItem.id <$> cart s')).
Proof.
  cbn zeta. split; [done|]. split; [|split; [|split; [|split]]].
  - intros Hin. simpl. rewrite addToCartUpdater_present by done.
    split; [apply mapWhere_length|]. split; [|split; [|split]].
    + intros i e Hi Hid Hq.
      rewrite (mapWhere_lookup_hit _ _ _ _ _ Hi Hid).
      unfold CartItem.with_quantity. by rewrite numberAdd_exact by lia.
    + intros i e Hi Hid.
      by rewrite (mapWhere_lookup_hit _ _ _ _ _ Hi Hid).
    + intros i e Hi Hid. by apply mapWhere_lookup_miss.
    + intros item' Hid. unfold addToCart, setCart. f_equal.
      rewrite addToCartUpdater_present by (by rewrite Hid).
      rewrite (addToCartUpdater_present item) by done.
      unfold mapWhere. apply list_fmap_ext. intros _ c _. by rewrite Hid.
  - intros Hout. simpl. by rewrite addToCartUpdater_absent.
  - intros Hnil item2 Hid. simpl. rewrite Hnil.
    unfold addToCartUpdater at 2. simpl.
    unfold addToCartUpdater, findCartItem. simpl.
    rewrite decide_True by done. simpl. rewrite decide_True by done.
    reflexivity.
  - apply addToCartUpdater_NoDup.
  - intros initialTables Hr. split.
    + by eapply reachable_cart_NoDup.
    + apply (reachable_cart_NoDup initialTables (step (AddToCart item) s)).
      by constructor.
Qed.

(** *** Claim C4 *)

(** C4.  [updateItemQuantity(id, quantity)] touches the cart only.  For
    [quantity <= 0] the cart keeps, in order, exactly its entries with another
    id, and is unchanged when no entry has the id.  For [quantity > 0] every
    entry with the id keeps its place and its other fields and gets exactly
    the given quantity, every other entry is as it was, and the cart is
    unchanged when no entry has the id. *)
Theorem updateItemQuantity_spec (s : State) (id : string) (quantity : Z) :
  let s' := step (UpdateItemQuantity id quantity) s in
  (tables s' = tables s ∧ orders s' = orders s ∧ orderType s' = orderType s)
  ∧ (quantity ≤ 0 →
      cart s' = filter (λ e, CartItem.id e ≠ id) (cart s)
      ∧ (∀ e, e ∈ cart s' ↔ e ∈ cart s ∧ CartItem.id e ≠ id)
      ∧ cart s' = cart (step (RemoveFromCart id) s)
      ∧ ((∀ e, e ∈ cart s → CartItem.id e ≠ id) → cart s' = cart s))
  ∧ (0 < quantity →
      length (cart s') = length (cart s)
      ∧ (∀ i e, cart s !! i = Some e → CartItem.id e = id →
           cart s' !! i =
           Some (CartItem.mk (CartItem.id e) (CartItem.name e) (CartItem.price e)
                             quantity (CartItem.category e)))
      ∧ (∀ i e, cart s !! i = Some e → CartItem.id e ≠ id →
           cart s' !! i = Some e)
      ∧ ((∀ e, e ∈ cart s → CartItem.id e ≠ id) → cart s' = cart s)).
Proof.
  cbn zeta. simpl. unfold updateItemQuantity.
  split; [by destruct (decide (quantity ≤ 0))|]. split.
  - intros Hq. rewrite decide_True by done. simpl.
    unfold removeFromCartUpdater. split; [done|]. split; [|split; [done|]].
    + intros e. rewrite list_elem_of_filter. tauto.
    + intros Habs. induction (cart s) as [|x l IH]; [done|].
      rewrite filter_cons, decide_True by (apply Habs; left).
      f_equal. apply IH. intros e He. apply Habs. by right.
  - intros Hq. rewrite decide_False by lia. simpl.
    unfold setQuantityUpdater.
    split; [apply mapWhere_length|]. split; [|split].
    + intros i e Hi Hid.
      by rewrite (mapWhere_lookup_hit _ _ _ _ _ Hi Hid).
    + intros i e Hi Hid. by apply mapWhere_lookup_miss.
    + apply mapWhere_absent.
Qed.

(** ** Creating an order *)

(** The cart calls leave the orders and the tables alone. *)
Lemma cartAction_frame (a : Action) (s : State) :
  cartAction a = true →
  orders (step a s) = orders s ∧ tables (step a s) = tables s.
Proof.
  destruct a; try discriminate; intros _; simpl; try done.
  unfold updateItemQuantity. by destruct (decide (quantity ≤ 0)).
Qed.

Lemma run_cartActions_frame (l : list Action) (s : State) :
  forallb cartAction l = true →
  orders (run l s) = orders s ∧ tables (run l s) = tables s.
Proof.
  revert s. induction l as [|a l IH]; intros s Hl; [done|].
  simpl in Hl. apply andb_prop in Hl as [Ha Hl].
  unfold run in *. simpl. destruct (IH (step a s) Hl) as [-> ->].
  by apply cartAction_frame.
Qed.

Lemma createOrder_nonempty (s : State) (env : Env) (tableId : string)
    (ty : OrderType) :
  cart s ≠ [] →
  step (CreateOrder env tableId ty) s =
  clearCart
    ((if decide (ty = DineIn) then updateTableStatus tableId Reserved else id)
       (setOrders (λ prevOrders, prevOrders ++ [newOrder s env tableId ty]) s)).
Proof.
  intros Hne. simpl. unfold createOrder.
  rewrite decide_False by (by destruct (cart s)).
  by destruct (decide (ty = DineIn)).
Qed.

(** *** Claim C1 *)

(** C1.  With a non-empty cart, [createOrder(tableId, 'Dine In')] appends
    exactly one order to the order list; that order has status Processing,
    duration 0, the empty chef id, the given table id, type Dine In and the
    cart of the call as its items.  Every table with the given id becomes
    Reserved and keeps its other fields, every other table is as it was, and
    the cart becomes empty.  Whatever cart calls follow ([addToCart],
    [removeFromCart], [updateItemQuantity], [clearCart]), the order list,
    and so the items of the new order, stay as they were. *)
Theorem createOrder_dine_in (s : State) (env : Env) (tableId : string) :
  cart s ≠ [] →
  let s' := step (CreateOrder env tableId DineIn) s in
  (∃ o, orders s' = orders s ++ [o]
        ∧ Order.status o = Processing
        ∧ Order.duration o = 0
        ∧ Order.chefId o = EmptyString
        ∧ Order.tableId o = tableId
        ∧ Order.type o = DineIn
        ∧ Order.items o = cart s
        ∧ ∀ later, forallb cartAction later = true →
            orders (run later s') = orders s ++ [o]
            ∧ last (orders (run later s')) = Some o)
  ∧ length (orders s') = S (length (orders s))
  ∧ length (tables s') = length (tables s)
  ∧ (∀ i t, tables s !! i = Some t → Table.id t = tableId →
       tables s' !! i =
       Some (Table.mk (Table.id t) (Table.name t) (Table.chairs t) Reserved))
  ∧ (∀ i t, tables s !! i = Some t → Table.id t ≠ tableId →
       tables s' !! i = Some t)
  ∧ (∀ t, t ∈ tables s' → Table.id t = tableId → Table.status t = Reserved)
  ∧ cart s' = []
  ∧ orderType s' = orderType s.
Proof.
  intros Hne s'. subst s'. rewrite createOrder_nonempty by done.
  rewrite decide_True by done. simpl.
  split; [|split; [|split; [|split; [|split; [|split]]]]].
  - eexists. split; [reflexivity|]. simpl. do 6 (split; [done|]).
    intros later Hl.
    destruct (run_cartActions_frame later
      (clearCart (updateTableStatus tableId Reserved
        (setOrders (λ prevOrders,
           prevOrders ++ [newOrder s env tableId DineIn]) s))) Hl) as [-> _].
    simpl. split; [done|]. apply last_snoc.
  - rewrite length_app. simpl. lia.
  - apply mapWhere_length.
  - intros i t Hi Hid.
    by rewrite (mapWhere_lookup_hit _ _ _ _ _ Hi Hid).
  - intros i t Hi Hid. by apply mapWhere_lookup_miss.
  - intros t Ht Hid. unfold mapWhere in Ht.
    apply list_elem_of_fmap in Ht as (t0 & -> & _).
    destruct (decide (Table.id t0 = tableId)); [done|]. by destruct n.
  - done.
Qed.

(** *** Claim C5 *)

(** C5.  With an empty cart, [createOrder(tableId, type)] returns the state
    it was given, for every table id and type: no order, no table change,
    the cart still empty.  The call is a total function, so nothing is
    raised. *)
Theorem createOrder_empty_cart (s : State) (env : Env) (tableId : string)
    (ty : OrderType) :
  cart s = [] →
  step (CreateOrder env tableId ty) s = s
  ∧ orders (step (CreateOrder env tableId ty) s) = orders s
  ∧ tables (step (CreateOrder env tableId ty) s) = tables s
  ∧ cart (step (CreateOrder env tableId ty) s) = [].
Proof.
  intros Hc. assert (step (CreateOrder env tableId ty) s = s) as ->; [|done].
  simpl. unfold createOrder. by rewrite Hc, decide_True.
Qed.

(** *** Claim C6 *)

(** C6.  With a non-empty cart, [createOrder(tableId, 'Take Away')] leaves
    the table list exactly as it was, appends one order (Processing, type
    Take Away, the given table id, the cart as items) and empties the
    cart. *)
Theorem createOrder_take_away (s : State) (env : Env) (tableId : string) :
  cart s ≠ [] →
  let s' := step (CreateOrder env tableId TakeAway) s in
  tables s' = tables s
  ∧ (∃ o, orders s' = orders s ++ [o]
          ∧ Order.status o = Processing
          ∧ Order.type o = TakeAway
          ∧ Order.tableId o = tableId
          ∧ Order.items o = cart s)
  ∧ length (orders s') = S (length (orders s))
  ∧ cart s' = [].
Proof.
  intros Hne s'. subst s'. rewrite createOrder_nonempty by done.
  rewrite decide_False by done. simpl.
  split; [done|]. split; [by eexists|]. split; [|done].
  rewrite length_app. simpl. lia.
Qed.

(** ** Updating an order *)

Lemma updateOrderStatus_orders (s : State) (orderId : string) (st : OrderStatus) :
  orders (step (UpdateOrderStatus orderId st) s) =
  mapWhere (λ order, Order.id order = orderId)
           (λ order, Order.with_status order st) (orders s).
Proof.
  simpl. unfold updateOrderStatus.
  destruct (findOrder orderId (orders s)) as [o|]; [|done].
  by destruct (decide (st = Served ∧ Order.type o = DineIn)).
Qed.

Lemma updateOrderStatus_cart (s : State) (orderId : string) (st : OrderStatus) :
  cart (step (UpdateOrderStatus orderId st) s) = cart s.
Proof.
  simpl. unfold updateOrderStatus.
  destruct (findOrder orderId (orders s)) as [o|]; [|done].
  by destruct (decide (st = Served ∧ Order.type o = DineIn)).
Qed.

(** The tables after [updateOrderStatus(orderId, 'Served')], by the first
    order with that id. *)
Lemma updateOrderStatus_served_tables (s : State) (orderId : string)
    (o : Order.t) :
  findOrder orderId (orders s) = Some o →
  tables (step (UpdateOrderStatus orderId Served) s) =
  match Order.type o with
  | DineIn =>
      mapWhere (λ table, Table.id table = Order.tableId o)
               (λ table, Table.with_status table Available) (tables s)
  | TakeAway => tables s
  end.
Proof.
  intros Hf. simpl. unfold updateOrderStatus. rewrite Hf.
  destruct (Order.type o) eqn:Hty.
  - by rewrite decide_True.
  - rewrite decide_False; [done|]. by intros [_ ?].
Qed.

(** *** Claim C2 *)

(** C2, as amended.  Let [o] be the first order of the order list with the
    given id, as [find] returns it on the list before the update.  Then
    [updateOrderStatus(orderId, 'Served')] sets the status of every order
    with that id to Served, in place and with its other fields kept, and
    leaves every other order and the cart as they were.  If the type of [o]
    is Dine In, every table whose id is the table id of [o] becomes Available
    and every other table is as it was; if the type of [o] is Take Away, the
    table list is unchanged. *)
Theorem updateOrderStatus_served (s : State) (orderId : string) (o : Order.t) :
  findOrder orderId (orders s) = Some o →
  let s' := step (UpdateOrderStatus orderId Served) s in
  (o ∈ orders s ∧ Order.id o = orderId)
  ∧ length (orders s') = length (orders s)
  ∧ (∀ i o', orders s !! i = Some o' → Order.id o' = orderId →
       orders s' !! i =
       Some (Order.mk (Order.id o') (Order.tableId o') (Order.timestamp o')
                      (Order.items o') Served (Order.type o')
                      (Order.duration o') (Order.chefId o')))
  ∧ (∀ i o', orders s !! i = Some o' → Order.id o' ≠ orderId →
       orders s' !! i = Some o')
  ∧ (Order.type o = DineIn →
       length (tables s') = length (tables s)
       ∧ (∀ i t, tables s !! i = Some t → Table.id t = Order.tableId o →
            tables s' !! i =
            Some (Table.mk (Table.id t) (Table.name t) (Table.chairs t) Available))
       ∧ (∀ i t, tables s !! i = Some t → Table.id t ≠ Order.tableId o →
            tables s' !! i = Some t))
  ∧ (Order.type o = TakeAway → tables s' = tables s)
  ∧ cart s' = cart s.
Proof.
  intros Hf s'. subst s'.
  rewrite updateOrderStatus_orders, updateOrderStatus_cart,
    (updateOrderStatus_served_tables s orderId o Hf).
  split; [|split; [|split; [|split; [|split; [|split]]]]].
  - apply findOrder_Some in Hf as (i & Hi & Hid & _).
    split; [|done]. apply list_elem_of_lookup. eauto.
  - apply mapWhere_length.
  - intros i o' Hi Hid. by rewrite (mapWhere_lookup_hit _ _ _ _ _ Hi Hid).
  - intros i o' Hi Hid. by apply mapWhere_lookup_miss.
  - intros ->. split; [apply mapWhere_length|]. split.
    + intros i t Hi Hid. by rewrite (mapWhere_lookup_hit _ _ _ _ _ Hi Hid).
    + intros i t Hi Hid. by apply mapWhere_lookup_miss.
  - by intros ->.
  - done.
Qed.

(** *** Claim C8 *)

(** C8.  When two different positions of the order list hold orders with the
    same id, [updateOrderStatus(id, status)] gives both the new status and
    [assignChef(id, chefId)] gives both the new chef id, each order keeping
    its place and its other fields. *)
Theorem duplicate_ids_updated_together (s : State) (orderId : string)
    (i j : nat) (o1 o2 : Order.t) :
  i ≠ j →
  orders s !! i = Some o1 → orders s !! j = Some o2 →
  Order.id o1 = orderId → Order.id o2 = orderId →
  (∀ st,
     let s' := step (UpdateOrderStatus orderId st) s in
     orders s' !! i =
       Some (Order.mk (Order.id o1) (Order.tableId o1) (Order.timestamp o1)
                      (Order.items o1) st (Order.type o1)
                      (Order.duration o1) (Order.chefId o1))
     ∧ orders s' !! j =
       Some (Order.mk (Order.id o2) (Order.tableId o2) (Order.timestamp o2)
                      (Order.items o2) st (Order.type o2)
                      (Order.duration o2) (Order.chefId o2)))
  ∧ (∀ chefId,
     let s' := step (AssignChef orderId chefId) s in
     orders s' !! i =
       Some (Order.mk (Order.id o1) (Order.tableId o1) (Order.timestamp o1)
                      (Order.items o1) (Order.status o1) (Order.type o1)
                      (Order.duration o1) chefId)
     ∧ orders s' !! j =
       Some (Order.mk (Order.id o2) (Order.tableId o2) (Order.timestamp o2)
                      (Order.items o2) (Order.status o2) (Order.type o2)
                      (Order.duration o2) chefId)).
Proof.
  intros _ Hi Hj Hid1 Hid2. split.
  - intros st s'. subst s'. rewrite updateOrderStatus_orders.
    by rewrite (mapWhere_lookup_hit _ _ _ _ _ Hi Hid1),
      (mapWhere_lookup_hit _ _ _ _ _ Hj Hid2).
  - intros chefId s'. subst s'. simpl.
    by rewrite (mapWhere_lookup_hit _ _ _ _ _ Hi Hid1),
      (mapWhere_lookup_hit _ _ _ _ _ Hj Hid2).
Qed.

(** ** Adding a table *)

(** Padding with ["0"] to width 2: some zeros in front, none more than
    needed. *)
Lemma padStart_2_zero (str : string) :
  (∃ k, padStart 2 "0" str = String.append (repeatString k "0") str)
  ∧ String.length (padStart 2 "0" str) = Nat.max 2 (String.length str).
Proof.
  destruct str as [|a [|b r]].
  - split; [by exists 2%nat|done].
  - split; [by exists 1%nat|done].
  - unfold padStart. rewrite decide_True by (simpl; lia).
    split; [by exists 0%nat|]. simpl. lia.
Qed.

(** *** Claim C7 *)

(** C7.  [addTable(table)] appends exactly one table and changes nothing
    else.  The new table has the given name, chairs and status; its id is
    the decimal string of the table count plus one with zeros in front up to
    a width of two and no further: ["10"] after 9 tables, ["01"] after none,
    ["100"] after 99.  The append is unconditional: when the id is already
    that of a table in the list, the list ends up with that id twice. *)
Theorem addTable_spec (s : State) (table : NewTable.t) :
  let s' := step (AddTable table) s in
  let digits := numberToString (Z.of_nat (length (tables s)) + 1) in
  ∃ t, tables s' = tables s ++ [t]
    ∧ Table.name t = NewTable.name table
    ∧ Table.chairs t = NewTable.chairs table
    ∧ Table.status t = NewTable.status table
    ∧ (∃ k, Table.id t = String.append (repeatString k "0") digits)
    ∧ String.length (Table.id t) = Nat.max 2 (String.length digits)
    ∧ (length (tables s) = 9%nat → Table.id t = "10"%string)
    ∧ (length (tables s) = 0%nat → Table.id t = "01"%string)
    ∧ (length (tables s) = 99%nat → Table.id t = "100"%string)
    ∧ (Table.id t ∈ Table.id <$> tables s → ¬ NoDup (Table.id <$> tables s'))
    ∧ orders s' = orders s ∧ cart s' = cart s ∧ orderType s' = orderType s.
Proof.
  cbn zeta. exists (newTable s table). simpl.
  do 4 (split; [done|]).
  destruct (padStart_2_zero
    (numberToString (Z.of_nat (length (tables s)) + 1))) as [Hk Hlen].
  do 2 (split; [done|]).
  split; [by intros ->|]. split; [by intros ->|]. split; [by intros ->|].
  split; [|done].
  intros Hin Hnd. rewrite fmap_app in Hnd.
  apply NoDup_app in Hnd as (_ & Hdisj & _).
  apply (Hdisj _ Hin). simpl. left.
Qed.

(** A table list in which [addTable] repeats an id: one seed table whose id
    is ["02"]. *)
Example addTable_repeats_id :
  Table.id <$> tables (step (AddTable (NewTable.mk "T5" 4 Available))
                            (initialState [Table.mk "02" "T1" 2 Available]))
  = ["02"; "02"]%string.
Proof. reflexivity. Qed.

(** ** Invariants of the order list *)

Lemma step_orders_kept (a : Action) (s : State) (i : nat) (o : Order.t) :
  orders s !! i = Some o →
  ∃ o', orders (step a s) !! i = Some o'
        ∧ Order.duration o' = Order.duration o
        ∧ Order.timestamp o' = Order.timestamp o.
Proof.
  intros Hi.
  assert (∀ (P : Order.t → Prop) `{!∀ x, Decision (P x)} g,
    (∀ x, Order.duration (g x) = Order.duration x
          ∧ Order.timestamp (g x) = Order.timestamp x) →
    ∃ o', mapWhere P g (orders s) !! i = Some o'
          ∧ Order.duration o' = Order.duration o
          ∧ Order.timestamp o' = Order.timestamp o) as Hmap.
  { intros P HP g Hg. destruct (decide (P o)) as [Ho|Ho].
    - exists (g o). split; [by apply mapWhere_lookup_hit|apply Hg].
    - exists o. split; [by apply mapWhere_lookup_miss|done]. }
  destruct a; try (exists o; by split).
  - exists o. split; [|done]. simpl. unfold updateItemQuantity.
    by destruct (decide (quantity ≤ 0)).
  - exists o. split; [|done]. simpl. unfold createOrder.
    destruct (decide (length (cart s) = 0%nat)); [done|].
    destruct (decide (ty = DineIn)); simpl; by apply lookup_app_l_Some.
  - rewrite updateOrderStatus_orders. by apply Hmap.
  - simpl. by apply Hmap.
Qed.

Lemma step_duration_zero (a : Action) (s : State) :
  Forall (λ o, Order.duration o = 0) (orders s) →
  Forall (λ o, Order.duration o = 0) (orders (step a s)).
Proof.
  intros Hs. destruct a; try done.
  - simpl. unfold updateItemQuantity. by destruct (decide (quantity ≤ 0)).
  - simpl. unfold createOrder.
    destruct (decide (length (cart s) = 0%nat)); [done|].
    assert (Forall (λ o, Order.duration o = 0)
              (orders s ++ [newOrder s env tableId ty])).
    { apply Forall_app. split; [done|]. by apply Forall_singleton. }
    by destruct (decide (ty = DineIn)).
  - rewrite updateOrderStatus_orders. by apply mapWhere_Forall.
  - simpl. by apply mapWhere_Forall.
Qed.

(** *** Claim C9 *)

(** C9.  In every state reachable from the first render, whatever the seed
    tables, every order has duration 0.  And no call changes the duration or
    the timestamp of an order that is in the list: after any call from any
    state, the order at each position has the duration and the timestamp of
    the order that was there before. *)
Theorem order_duration_zero :
  (∀ initialTables s, reachable initialTables s →
     Forall (λ o, Order.duration o = 0) (orders s))
  ∧ (∀ a s i o, orders s !! i = Some o →
       ∃ o', orders (step a s) !! i = Some o'
             ∧ Order.duration o' = Order.duration o
             ∧ Order.timestamp o' = Order.timestamp o).
Proof.
  split.
  - intros initialTables s Hr.
    induction Hr as [|a s _ IH]; [by apply Forall_nil|].
    by apply step_duration_zero.
  - intros a s i o. apply step_orders_kept.
Qed.

(** *** Claim C10 *)

(** C10.  Two states with the same tables, orders and cart, whatever their
    [orderType] flags, have the same tables, orders and cart after any call
    other than [setOrderType], and each keeps its own flag.  In particular
    [createOrder] depends on its [type] argument and not on the flag. *)
Theorem orderType_noninterference (a : Action) (s1 s2 : State) :
  tables s1 = tables s2 → orders s1 = orders s2 → cart s1 = cart s2 →
  (∀ ty, a ≠ SetOrderType ty) →
  tables (step a s1) = tables (step a s2)
  ∧ orders (step a s1) = orders (step a s2)
  ∧ cart (step a s1) = cart (step a s2)
  ∧ orderType (step a s1) = orderType s1
  ∧ orderType (step a s2) = orderType s2.
Proof.
  destruct s1 as [t1 o1 c1 f1], s2 as [t2 o2 c2 f2]. simpl.
  intros -> -> -> Hne.
  destruct a; simpl; try done.
  - by destruct (Hne ty).
  - unfold updateItemQuantity. by destruct (decide (quantity ≤ 0)).
  - unfold createOrder. simpl.
    destruct (decide (length c2 = 0%nat)); [done|].
    by destruct (decide (ty = DineIn)).
  - unfold updateOrderStatus. simpl.
    destruct (findOrder orderId o2) as [o|]; [|done].
    by destruct (decide (st = Served ∧ Order.type o = DineIn)).
Qed.

(** ** The claims on concrete states *)

(** The scenario of the specification: one seed table, [soup] added, then a
    dine-in order for table ["01"]. *)
Example scenario_dine_in :
  let s := run [AddToCart soup; CreateOrder noon "01" DineIn]
               (initialState [Table.mk "01" "Table 1" 4 Available]) in
  length (orders s) = 1%nat
  ∧ Order.items <$> orders s = [[soup]]
  ∧ Table.status <$> tables s = [Reserved]
  ∧ cart s = [].
Proof. by vm_compute. Qed.

Lemma run_reachable (initialTables : list Table.t) (l : list Action) (s : State) :
  reachable initialTables s → reachable initialTables (run l s).
Proof.
  revert s. induction l as [|a l IH]; intros s Hs; [done|].
  apply IH. by constructor.
Qed.

Example collidingOrders_eq :
  Order.id <$> orders collidingOrders = ["#550"; "#550"]%string
  ∧ Order.type <$> orders collidingOrders = [TakeAway; DineIn]
  ∧ Table.status <$> tables collidingOrders = [Available; Reserved].
Proof. by vm_compute. Qed.

Lemma createOrder_dine_in_witness :
  cart soupInCart ≠ []
  ∧ length (orders (step (CreateOrder noon "01" DineIn) soupInCart)) = 1%nat
  ∧ cart (step (CreateOrder noon "01" DineIn) soupInCart) = [].
Proof.
  assert (cart soupInCart ≠ []) as Hne by done.
  split; [exact Hne|].
  destruct (createOrder_dine_in soupInCart noon "01" Hne)
    as (_ & Hlen & _ & _ & _ & _ & Hcart & _).
  split; [exact Hlen|exact Hcart].
Defined.

(** C2 as it is stated fails in a reachable state.  In [collidingOrders] the
    second order has id ["#550"] and type Dine In for table ["02"], and after
    [updateOrderStatus("#550", 'Served')] table ["02"] is still Reserved: the
    first order with that id is a take-away order. *)
Lemma updateOrderStatus_served_colliding_ids :
  reachable seedTables collidingOrders
  ∧ ¬ (∀ o, o ∈ orders collidingOrders → Order.id o = "#550"%string →
         Order.type o = DineIn →
         ∀ t, t ∈ tables (step (UpdateOrderStatus "#550" Served) collidingOrders) →
              Table.id t = Order.tableId o → Table.status t = Available).
Proof.
  split; [apply run_reachable; constructor|].
  intros H.
  specialize (H (Order.mk "#550" "02" "12:00" [bread] Processing DineIn 0 "")).
  specialize (H ltac:(vm_compute; right; left) eq_refl eq_refl).
  specialize (H (Table.mk "02" "Table 2" 2 Reserved)).
  specialize (H ltac:(vm_compute; right; left) eq_refl).
  discriminate H.
Qed.

Lemma updateOrderStatus_served_witness :
  findOrder "#550" (orders collidingOrders)
    = Some (Order.mk "#550" "01" "12:00" [soup] Processing TakeAway 0 "")
  ∧ tables (step (UpdateOrderStatus "#550" Served) collidingOrders)
    = tables collidingOrders.
Proof.
  assert (findOrder "#550" (orders collidingOrders)
    = Some (Order.mk "#550" "01" "12:00" [soup] Processing TakeAway 0 ""))
    as Hf by (by vm_compute).
  split; [exact Hf|].
  destruct (updateOrderStatus_served collidingOrders "#550" _ Hf)
    as (_ & _ & _ & _ & _ & Htake & _).
  exact (Htake eq_refl).
Defined.

(** C3 as it is stated fails in a reachable state.  In [maxedQuantity] the
    cart holds [soup] with quantity [2^53], set by [updateItemQuantity];
    there [addToCart] leaves the quantity at [2^53], the double sum
    [2^53 + 1], and does not increase it by one. *)
Lemma addToCart_at_two_to_53 :
  reachable seedTables maxedQuantity
  ∧ CartItem.quantity <$> cart maxedQuantity !! 0%nat = Some (2 ^ 53)
  ∧ CartItem.quantity <$> cart (step (AddToCart soup) maxedQuantity) !! 0%nat
    = Some (2 ^ 53)
  ∧ CartItem.quantity <$> cart (step (AddToCart soup) maxedQuantity) !! 0%nat
    ≠ Some (2 ^ 53 + 1).
Proof.
  split; [do 2 apply reachable_step; apply reachable_init|].
  by vm_compute.
Qed.

Lemma addToCart_witness :
  cart (step (AddToCart broth) soupInCart) = [CartItem.mk "i1" "Soup" 5 2 "Starter"]
  ∧ NoDup (CartItem.id <$> cart (step (AddToCart broth) soupInCart))
  ∧ (- 2 ^ 53 ≤ CartItem.quantity soup < 2 ^ 53
     ∧ cart (step (AddToCart broth) soupInCart) !! 0%nat
       = Some (CartItem.mk "i1" "Soup" 5 (1 + 1) "Starter")).
Proof.
  destruct (addToCart_spec (initialState seedTables) soup)
    as (_ & _ & _ & Htwice & _ & Hreach).
  split; [|split].
  - exact (Htwice eq_refl broth eq_refl).
  - destruct (addToCart_spec soupInCart broth) as (_ & _ & _ & _ & _ & Hr).
    apply (Hr seedTables). apply reachable_step. apply reachable_init.
  - assert (- 2 ^ 53 ≤ CartItem.quantity soup < 2 ^ 53) as Hq by (by vm_compute).
    split; [exact Hq|].
    destruct (addToCart_spec soupInCart broth) as (_ & Hpresent & _).
    destruct (Hpresent ltac:(exists soup; split; [left|reflexivity]))
      as (_ & Hinc & _).
    exact (Hinc 0%nat soup eq_refl eq_refl Hq).
Defined.

Lemma updateItemQuantity_witness :
  cart (step (UpdateItemQuantity "i1" (-1)) soupInCart) = []
  ∧ cart (step (UpdateItemQuantity "i1" 3) soupInCart) !! 0%nat
    = Some (CartItem.mk "i1" "Soup" 5 3 "Starter").
Proof.
  split.
  - destruct (updateItemQuantity_spec soupInCart "i1" (-1)) as (_ & Hrm & _).
    destruct (Hrm ltac:(lia)) as (Heq & _). exact Heq.
  - destruct (updateItemQuantity_spec soupInCart "i1" 3) as (_ & _ & Hset).
    destruct (Hset ltac:(lia)) as (_ & Hhit & _).
    exact (Hhit 0%nat soup eq_refl eq_refl).
Defined.

Lemma createOrder_empty_cart_witness :
  cart (initialState seedTables) = []
  ∧ step (CreateOrder noon "01" DineIn) (initialState seedTables)
    = initialState seedTables.
Proof.
  split; [reflexivity|].
  destruct (createOrder_empty_cart (initialState seedTables) noon "01" DineIn
              eq_refl) as (Heq & _).
  exact Heq.
Defined.

Lemma createOrder_take_away_witness :
  cart soupInCart ≠ []
  ∧ tables (step (CreateOrder noon "01" TakeAway) soupInCart) = seedTables.
Proof.
  assert (cart soupInCart ≠ []) as Hne by done.
  split; [exact Hne|].
  destruct (createOrder_take_away soupInCart noon "01" Hne) as (Ht & _).
  exact Ht.
Defined.

Lemma addTable_witness :
  ∃ t, tables (step (AddTable (NewTable.mk "T5" 4 Available))
                    (initialState seedTables)) = seedTables ++ [t]
       ∧ String.length (Table.id t) = 2%nat.
Proof.
  destruct (addTable_spec (initialState seedTables)
              (NewTable.mk "T5" 4 Available))
    as (t & Happ & _ & _ & _ & _ & Hlen & _).
  exists t. split; [exact Happ|exact Hlen].
Defined.

Lemma duplicate_ids_updated_together_witness :
  Order.status <$> orders (step (UpdateOrderStatus "#550" Done) collidingOrders)
    !! 0%nat = Some Done
  ∧ Order.status <$> orders (step (UpdateOrderStatus "#550" Done) collidingOrders)
    !! 1%nat = Some Done.
Proof.
  destruct (duplicate_ids_updated_together collidingOrders "#550" 0 1
              (Order.mk "#550" "01" "12:00" [soup] Processing TakeAway 0 "")
              (Order.mk "#550" "02" "12:00" [bread] Processing DineIn 0 "")
              ltac:(lia) eq_refl eq_refl eq_refl eq_refl) as (Hst & _).
  destruct (Hst Done) as (H0 & H1).
  split; [by rewrite H0|by rewrite H1].
Defined.

Lemma order_duration_zero_witness :
  Forall (λ o, Order.duration o = 0) (orders collidingOrders).
Proof.
  apply (proj1 order_duration_zero seedTables).
  apply run_reachable. apply reachable_init.
Defined.

Lemma orderType_noninterference_witness :
  orders (step (CreateOrder noon "01" DineIn) soupInCart)
  = orders (step (CreateOrder noon "01" DineIn) (setOrderType TakeAway soupInCart)).
Proof.
  destruct (orderType_noninterference (CreateOrder noon "01" DineIn)
              soupInCart (setOrderType TakeAway soupInCart)
              eq_refl eq_refl eq_refl ltac:(discriminate)) as (_ & Ho & _).
  exact Ho.
Defined.


(** * Further properties of the store *)

(** ** Two updates of the same elements *)

Section map_where_twice.
Context {A : Type} (P : A → Prop) `{!∀ x, Decision (P x)}.

(** The later of two updates of the same elements wins when it does not look
    at what the earlier one wrote. *)
Lemma mapWhere_overwrite (g h : A → A) (l : list A) :
  (∀ x, P x → P (g x)) → (∀ x, h (g x) = h x) →
  mapWhere P h (mapWhere P g l) = mapWhere P h l.
Proof.
  intros HP Hh. unfold mapWhere. rewrite <- list_fmap_compose.
  apply list_fmap_ext. intros _ x _. simpl.
  destruct (decide (P x)) as [Hx|Hx].
  - by rewrite decide_True, Hh by auto.
  - by rewrite decide_False.
Qed.

(** Two updates of the same elements that write different fields can be
    done in either order. *)
Lemma mapWhere_swap (g h : A → A) (l : list A) :
  (∀ x, P x → P (g x)) → (∀ x, P x → P (h x)) →
  (∀ x, h (g x) = g (h x)) →
  mapWhere P h (mapWhere P g l) = mapWhere P g (mapWhere P h l).
Proof.
  intros Hg Hh Hgh. unfold mapWhere. rewrite <- !list_fmap_compose.
  apply list_fmap_ext. intros _ x _. simpl.
  destruct (decide (P x)) as [Hx|Hx].
  - by rewrite !decide_True, Hgh by auto.
  - by rewrite !decide_False.
Qed.

(** Dropping the elements that an update touched forgets the update. *)
Lemma filter_not_mapWhere (g : A → A) (l : list A) :
  (∀ x, P x → P (g x)) →
  filter (λ x, ¬ P x) (mapWhere P g l) = filter (λ x, ¬ P x) l.
Proof.
  intros Hg. induction l as [|x l IH]; [done|].
  unfold mapWhere in *. cbn [fmap list_fmap]. rewrite !filter_cons.
  destruct (decide (P x)) as [Hx|Hx].
  - rewrite !decide_False by (intros Hn; apply Hn; auto). exact IH.
  - rewrite !decide_True by done. by rewrite IH.
Qed.
End map_where_twice.

Lemma filter_all {A : Type} (P : A → Prop) `{!∀ x, Decision (P x)} (l : list A) :
  (∀ x, x ∈ l → P x) → filter P l = l.
Proof.
  induction l as [|x l IH]; intros Hl; [done|].
  rewrite filter_cons, decide_True by (apply Hl; left).
  f_equal. apply IH. intros y Hy. apply Hl. by right.
Qed.

Lemma Forall_filter_keep {A : Type} (Q P : A → Prop) `{!∀ x, Decision (P x)}
    (l : list A) :
  Forall Q l → Forall Q (filter P l).
Proof.
  rewrite !Forall_forall. intros Hl x Hx.
  apply list_elem_of_filter in Hx as [_ Hx]. by apply Hl.
Qed.

(** ** More on the cart *)

(** X1.  [removeFromCart(id)] keeps, in their order, exactly the entries with
    another id, so that [find] by [id] finds nothing afterwards; every entry
    with the id goes, however many there are.  It changes nothing at all when
    no entry has the id, and a second call changes nothing. *)
Theorem removeFromCart_spec (s : State) (id : string) :
  let s' := step (RemoveFromCart id) s in
  (∀ e, e ∈ cart s' ↔ e ∈ cart s ∧ CartItem.id e ≠ id)
  ∧ cart s' `sublist_of` cart s
  ∧ findCartItem id (cart s') = None
  ∧ ((∀ e, e ∈ cart s → CartItem.id e ≠ id) → s' = s)
  ∧ step (RemoveFromCart id) s' = s'
  ∧ tables s' = tables s ∧ orders s' = orders s ∧ orderType s' = orderType s.
Proof.
  cbn zeta. simpl. unfold removeFromCartUpdater.
  assert (∀ e, e ∈ filter (λ item, CartItem.id item ≠ id) (cart s) ↔
               e ∈ cart s ∧ CartItem.id e ≠ id) as Hin.
  { intros e. rewrite list_elem_of_filter. tauto. }
  split; [exact Hin|]. split; [apply sublist_filter|].
  split; [|split; [|split; [|done]]].
  - apply findCartItem_None. intros e He. by apply Hin in He as [_ ?].
  - intros Habs. destruct s as [t o c f]. unfold removeFromCart, setCart.
    simpl in *. f_equal. by apply filter_all.
  - unfold removeFromCart, setCart. simpl. f_equal.
    apply filter_all. intros e He. by apply Hin in He as [_ ?].
Qed.

(** X2.  Removing an id right after adding an item with that id gives the
    cart that removing the id alone gives, whether the add incremented an
    entry or appended one; when the cart had no entry with the id, the two
    calls together give back the state they started from. *)
Theorem addToCart_then_removeFromCart (s : State) (item : CartItem.t) :
  step (RemoveFromCart (CartItem.id item)) (step (AddToCart item) s)
  = step (RemoveFromCart (CartItem.id item)) s
  ∧ ((∀ e, e ∈ cart s → CartItem.id e ≠ CartItem.id item) →
     step (RemoveFromCart (CartItem.id item)) (step (AddToCart item) s) = s).
Proof.
  assert (removeFromCartUpdater (CartItem.id item)
            (addToCartUpdater item (cart s))
          = removeFromCartUpdater (CartItem.id item) (cart s)) as Heq.
  { unfold removeFromCartUpdater, addToCartUpdater.
    destruct (findCartItem (CartItem.id item) (cart s)).
    - by apply (filter_not_mapWhere
        (λ c : CartItem.t, CartItem.id c = CartItem.id item)).
    - rewrite filter_app, filter_cons, decide_False by (by intros []).
      by rewrite filter_nil, app_nil_r. }
  split.
  - simpl. unfold removeFromCart, addToCart, setCart. simpl. by rewrite Heq.
  - intros Habs. destruct s as [t o c f].
    simpl in *. unfold removeFromCart, addToCart, setCart. simpl.
    rewrite Heq. f_equal. unfold removeFromCartUpdater. by apply filter_all.
Qed.

Lemma step_cart_positive (a : Action) (s : State) :
  Forall (λ e, 0 < CartItem.quantity e) (cart s) →
  Forall (λ e, 0 < CartItem.quantity e) (cart (step a s)).
Proof.
  intros Hs. destruct a; simpl; try done.
  - unfold addToCartUpdater.
    destruct (findCartItem (CartItem.id item) (cart s)).
    + apply mapWhere_Forall; [|done]. intros x Hx. simpl.
      apply numberAdd_pos. lia.
    + apply Forall_app. split; [done|]. by apply Forall_singleton.
  - unfold removeFromCartUpdater. by apply Forall_filter_keep.
  - unfold updateItemQuantity. destruct (decide (quantity ≤ 0)); simpl.
    + unfold removeFromCartUpdater. by apply Forall_filter_keep.
    + apply mapWhere_Forall; [|done]. intros x _. simpl. lia.
  - unfold createOrder. destruct (decide (length (cart s) = 0%nat)); [done|].
    by destruct (decide (ty = DineIn)).
  - change (cart (updateOrderStatus s orderId st s))
      with (cart (step (UpdateOrderStatus orderId st) s)).
    by rewrite updateOrderStatus_cart.
Qed.

(** X3.  In every reachable state each cart entry has a quantity of at least
    one: an entry enters with quantity 1, [addToCart] only increments, and
    [updateItemQuantity] removes the entry instead of storing a quantity of
    zero or less. *)
Theorem reachable_cart_quantities (initialTables : list Table.t) (s : State) :
  reachable initialTables s →
  Forall (λ e, 1 ≤ CartItem.quantity e) (cart s).
Proof.
  intros Hr.
  apply (Forall_impl (λ e, 0 < CartItem.quantity e)); [|intros e He; lia].
  induction Hr as [|a s _ IH]; [by apply Forall_nil|].
  by apply step_cart_positive.
Qed.

(** ** More on tables *)

(** X4.  [updateTableStatus(tableId, status)] gives every table with the id
    the status and keeps its id, name and chairs; every other table, the
    orders and the cart are as they were.  With no table of that id the call
    changes nothing at all. *)
Theorem updateTableStatus_spec (s : State) (tableId : string) (st : TableStatus) :
  let s' := step (UpdateTableStatus tableId st) s in
  length (tables s') = length (tables s)
  ∧ (∀ i t, tables s !! i = Some t → Table.id t = tableId →
       tables s' !! i =
       Some (Table.mk (Table.id t) (Table.name t) (Table.chairs t) st))
  ∧ (∀ i t, tables s !! i = Some t → Table.id t ≠ tableId →
       tables s' !! i = Some t)
  ∧ ((∀ t, t ∈ tables s → Table.id t ≠ tableId) → s' = s)
  ∧ orders s' = orders s ∧ cart s' = cart s ∧ orderType s' = orderType s.
Proof.
  cbn zeta. simpl. split; [apply mapWhere_length|].
  split; [|split; [|split; [|done]]].
  - intros i t Hi Hid. by rewrite (mapWhere_lookup_hit _ _ _ _ _ Hi Hid).
  - intros i t Hi Hid. by apply mapWhere_lookup_miss.
  - intros Habs. destruct s as [t o c f].
    unfold updateTableStatus, setTables. simpl in *. f_equal.
    by apply mapWhere_absent.
Qed.

(** X5.  Of two [updateTableStatus] calls on the same table id the second
    decides: the state is the one the second call alone gives.  So a
    repeated call changes nothing more. *)
Theorem updateTableStatus_last_wins (s : State) (tableId : string)
    (st1 st2 : TableStatus) :
  step (UpdateTableStatus tableId st2) (step (UpdateTableStatus tableId st1) s)
  = step (UpdateTableStatus tableId st2) s
  ∧ step (UpdateTableStatus tableId st1) (step (UpdateTableStatus tableId st1) s)
  = step (UpdateTableStatus tableId st1) s.
Proof.
  assert (∀ a b, step (UpdateTableStatus tableId b)
                   (step (UpdateTableStatus tableId a) s)
                 = step (UpdateTableStatus tableId b) s) as H.
  { intros a b. simpl. unfold updateTableStatus, setTables. simpl. f_equal.
    by apply mapWhere_overwrite. }
  split; apply H.
Qed.

Lemma step_tables_kept (a : Action) (s : State) (i : nat) (t : Table.t) :
  tables s !! i = Some t →
  ∃ t', tables (step a s) !! i = Some t'
        ∧ Table.id t' = Table.id t
        ∧ Table.name t' = Table.name t
        ∧ Table.chairs t' = Table.chairs t.
Proof.
  intros Hi.
  assert (∀ tableId st,
    ∃ t', mapWhere (λ table, Table.id table = tableId)
                   (λ table, Table.with_status table st) (tables s) !! i = Some t'
          ∧ Table.id t' = Table.id t
          ∧ Table.name t' = Table.name t
          ∧ Table.chairs t' = Table.chairs t) as Hmap.
  { intros tableId st. destruct (decide (Table.id t = tableId)) as [Ht|Ht].
    - eexists. split; [by apply mapWhere_lookup_hit|done].
    - exists t. split; [by apply mapWhere_lookup_miss|done]. }
  destruct a; try (exists t; by split).
  - exists t. split; [|done]. simpl. unfold updateItemQuantity.
    by destruct (decide (quantity ≤ 0)).
  - simpl. unfold createOrder.
    destruct (decide (length (cart s) = 0%nat)); [by exists t|].
    destruct (decide (ty = DineIn)); simpl; [apply Hmap|by exists t].
  - simpl. unfold updateOrderStatus.
    destruct (findOrder orderId (orders s)) as [o|]; [|by exists t].
    destruct (decide (st = Served ∧ Order.type o = DineIn));
      simpl; [apply Hmap|by exists t].
  - exists t. split; [|done]. simpl. by apply lookup_app_l_Some.
  - simpl. apply Hmap.
Qed.

(** X6.  The table list only grows and its tables keep their identity:
    after any sequence of calls, every position that held a table still
    holds a table with the same id, name and chairs.  Only the status of a
    table can change; no call removes, reorders or renames a table. *)
Theorem tables_append_only (l : list Action) (s : State) (i : nat) (t : Table.t) :
  tables s !! i = Some t →
  ∃ t', tables (run l s) !! i = Some t'
        ∧ Table.id t' = Table.id t
        ∧ Table.name t' = Table.name t
        ∧ Table.chairs t' = Table.chairs t.
Proof.
  revert s t. induction l as [|a l IH]; intros s t Hi; [by exists t|].
  destruct (step_tables_kept a s i t Hi) as (t1 & H1 & Hid & Hname & Hch).
  destruct (IH (step a s) t1 H1) as (t2 & H2 & Hid2 & Hname2 & Hch2).
  exists t2. split; [exact H2|]. by rewrite Hid2, Hname2, Hch2.
Qed.

(** ** More on orders *)

(** X7.  [updateOrderStatus] with an id that no order has changes nothing at
    all, whatever the status: no order, no table, not the cart. *)
Theorem updateOrderStatus_unknown_id (s : State) (orderId : string)
    (st : OrderStatus) :
  (∀ o, o ∈ orders s → Order.id o ≠ orderId) →
  step (UpdateOrderStatus orderId st) s = s.
Proof.
  intros Habs. simpl. unfold updateOrderStatus.
  rewrite (proj2 (findOrder_None orderId (orders s)) Habs).
  destruct s as [t o c f]. unfold setOrders. simpl in *. f_equal.
  by apply mapWhere_absent.
Qed.

(** X8.  [updateOrderStatus] with a status other than Served never touches a
    table, for a dine-in order as for a take-away order: the table list and
    the cart are as they were, and the orders with the id have the new
    status. *)
Theorem updateOrderStatus_not_served (s : State) (orderId : string)
    (st : OrderStatus) :
  st ≠ Served →
  let s' := step (UpdateOrderStatus orderId st) s in
  tables s' = tables s
  ∧ cart s' = cart s
  ∧ (∀ i o, orders s !! i = Some o → Order.id o = orderId →
       Order.status <$> orders s' !! i = Some st).
Proof.
  intros Hst s'. subst s'.
  rewrite updateOrderStatus_cart, updateOrderStatus_orders.
  split; [|split; [done|]].
  - simpl. unfold updateOrderStatus.
    destruct (findOrder orderId (orders s)) as [o|]; [|done].
    rewrite decide_False; [done|]. by intros [? _].
  - intros i o Hi Hid. by rewrite (mapWhere_lookup_hit _ _ _ _ _ Hi Hid).
Qed.

(** X9.  [assignChef(orderId, chefId)] gives every order with the id the chef
    id, whatever string it is, and keeps its other fields, the status among
    them; every other order, the tables and the cart are as they were.  With
    no order of that id the call changes nothing at all. *)
Theorem assignChef_spec (s : State) (orderId chefId : string) :
  let s' := step (AssignChef orderId chefId) s in
  length (orders s') = length (orders s)
  ∧ (∀ i o, orders s !! i = Some o → Order.id o = orderId →
       orders s' !! i =
       Some (Order.mk (Order.id o) (Order.tableId o) (Order.timestamp o)
                      (Order.items o) (Order.status o) (Order.type o)
                      (Order.duration o) chefId))
  ∧ (∀ i o, orders s !! i = Some o → Order.id o ≠ orderId →
       orders s' !! i = Some o)
  ∧ ((∀ o, o ∈ orders s → Order.id o ≠ orderId) → s' = s)
  ∧ tables s' = tables s ∧ cart s' = cart s ∧ orderType s' = orderType s.
Proof.
  cbn zeta. simpl. split; [apply mapWhere_length|].
  split; [|split; [|split; [|done]]].
  - intros i o Hi Hid. by rewrite (mapWhere_lookup_hit _ _ _ _ _ Hi Hid).
  - intros i o Hi Hid. by apply mapWhere_lookup_miss.
  - intros Habs. destruct s as [t o c f].
    unfold assignChef, setOrders. simpl in *. f_equal.
    by apply mapWhere_absent.
Qed.

(** [find] by id sees through an update that keeps ids. *)
Lemma findOrder_mapWhere (orderId : string) (P : Order.t → Prop)
    `{!∀ x, Decision (P x)} (g : Order.t → Order.t) (l : list Order.t) :
  (∀ o, Order.id (g o) = Order.id o) →
  findOrder orderId (mapWhere P g l)
  = (λ o, if decide (P o) then g o else o) <$> findOrder orderId l.
Proof.
  intros Hg. unfold findOrder, mapWhere.
  induction l as [|x l IH]; [done|].
  cbn [fmap list_fmap list_find].
  assert (Order.id (if decide (P x) then g x else x) = Order.id x) as Hx.
  { by destruct (decide (P x)). }
  destruct (decide (Order.id x = orderId)) as [Hid|Hid].
  - by rewrite decide_True by (by rewrite Hx).
  - rewrite decide_False by (by rewrite Hx).
    rewrite <- !option_fmap_compose.
    rewrite <- !option_fmap_compose in IH. exact IH.
Qed.

(** X10.  Assigning a chef and setting a status can be done in either order,
    on the same order id or on different ones: the two calls give the same
    state both ways, the freed table included. *)
Theorem assignChef_updateOrderStatus_commute (s : State)
    (id1 chefId id2 : string) (st : OrderStatus) :
  step (UpdateOrderStatus id2 st) (step (AssignChef id1 chefId) s)
  = step (AssignChef id1 chefId) (step (UpdateOrderStatus id2 st) s).
Proof.
  destruct s as [t o c f]. simpl.
  unfold updateOrderStatus, assignChef, setOrders. simpl.
  rewrite findOrder_mapWhere by done.
  assert (mapWhere (λ order, Order.id order = id2)
            (λ order, Order.with_status order st)
            (mapWhere (λ order, Order.id order = id1)
               (λ order, Order.with_chefId order chefId) o)
          = mapWhere (λ order, Order.id order = id1)
              (λ order, Order.with_chefId order chefId)
              (mapWhere (λ order, Order.id order = id2)
                 (λ order, Order.with_status order st) o)) as Hswap.
  { unfold mapWhere. rewrite <- !list_fmap_compose.
    apply list_fmap_ext. intros _ x _. simpl.
    destruct (decide (Order.id x = id1)), (decide (Order.id x = id2)); simpl;
      repeat case_decide; done. }
  destruct (findOrder id2 o) as [x|]; simpl.
  - assert (Order.type (if decide (Order.id x = id1)
                        then Order.with_chefId x chefId else x) = Order.type x
            ∧ Order.tableId (if decide (Order.id x = id1)
                        then Order.with_chefId x chefId else x)
              = Order.tableId x) as [-> ->].
    { by destruct (decide (Order.id x = id1)). }
    destruct (decide (st = Served ∧ Order.type x = DineIn));
      unfold updateTableStatus, setTables; simpl; by rewrite Hswap.
  - by rewrite Hswap.
Qed.

Lemma step_orders_fixed (a : Action) (s : State) (i : nat) (o : Order.t) :
  orders s !! i = Some o →
  ∃ o', orders (step a s) !! i = Some o'
        ∧ Order.id o' = Order.id o
        ∧ Order.tableId o' = Order.tableId o
        ∧ Order.items o' = Order.items o
        ∧ Order.type o' = Order.type o.
Proof.
  intros Hi.
  assert (∀ (P : Order.t → Prop) `{!∀ x, Decision (P x)} g,
    (∀ x, Order.id (g x) = Order.id x
          ∧ Order.tableId (g x) = Order.tableId x
          ∧ Order.items (g x) = Order.items x
          ∧ Order.type (g x) = Order.type x) →
    ∃ o', mapWhere P g (orders s) !! i = Some o'
          ∧ Order.id o' = Order.id o
          ∧ Order.tableId o' = Order.tableId o
          ∧ Order.items o' = Order.items o
          ∧ Order.type o' = Order.type o) as Hmap.
  { intros P HP g Hg. destruct (decide (P o)) as [Ho|Ho].
    - exists (g o). split; [by apply mapWhere_lookup_hit|apply Hg].
    - exists o. split; [by apply mapWhere_lookup_miss|done]. }
  destruct a; try (exists o; by split).
  - exists o. split; [|done]. simpl. unfold updateItemQuantity.
    by destruct (decide (quantity ≤ 0)).
  - exists o. split; [|done]. simpl. unfold createOrder.
    destruct (decide (length (cart s) = 0%nat)); [done|].
    destruct (decide (ty = DineIn)); simpl; by apply lookup_app_l_Some.
  - rewrite updateOrderStatus_orders. by apply Hmap.
  - simpl. by apply Hmap.
Qed.

(** X11.  The order list only grows and an order is what it was created as:
    after any sequence of calls, every position that held an order still
    holds an order with the same id, table id, items and type.  No call
    deletes or reorders orders, and nothing that happens to the cart or the
    tables later reaches the items of an order. *)
Theorem orders_append_only (l : list Action) (s : State) (i : nat) (o : Order.t) :
  orders s !! i = Some o →
  ∃ o', orders (run l s) !! i = Some o'
        ∧ Order.id o' = Order.id o
        ∧ Order.tableId o' = Order.tableId o
        ∧ Order.items o' = Order.items o
        ∧ Order.type o' = Order.type o.
Proof.
  revert s o. induction l as [|a l IH]; intros s o Hi; [by exists o|].
  destruct (step_orders_fixed a s i o Hi) as (o1 & H1 & Hid & Htb & Hit & Hty).
  destruct (IH (step a s) o1 H1) as (o2 & H2 & Hid2 & Htb2 & Hit2 & Hty2).
  exists o2. split; [exact H2|]. by rewrite Hid2, Htb2, Hit2, Hty2.
Qed.

(** X12.  What each call can change.  [setOrderType] changes the flag only;
    the four cart calls change the cart only; [createOrder] never changes the
    flag, nor the tables when the type is Take Away; [updateOrderStatus]
    never changes the cart or the flag, nor the tables unless the status is
    Served; [assignChef] changes orders only; [addTable] and
    [updateTableStatus] change tables only. *)
Theorem step_footprint (a : Action) (s : State) :
  let s' := step a s in
  match a with
  | SetOrderType _ =>
      tables s' = tables s ∧ orders s' = orders s ∧ cart s' = cart s
  | AddToCart _ | RemoveFromCart _ | UpdateItemQuantity _ _ | ClearCart =>
      tables s' = tables s ∧ orders s' = orders s ∧ orderType s' = orderType s
  | CreateOrder _ _ TakeAway =>
      tables s' = tables s ∧ orderType s' = orderType s
  | CreateOrder _ _ DineIn =>
      orderType s' = orderType s
  | UpdateOrderStatus _ Served =>
      cart s' = cart s ∧ orderType s' = orderType s
  | UpdateOrderStatus _ _ =>
      tables s' = tables s ∧ cart s' = cart s ∧ orderType s' = orderType s
  | AssignChef _ _ =>
      tables s' = tables s ∧ cart s' = cart s ∧ orderType s' = orderType s
  | AddTable _ | UpdateTableStatus _ _ =>
      orders s' = orders s ∧ cart s' = cart s ∧ orderType s' = orderType s
  end.
Proof.
  cbn zeta. destruct a; simpl; try done.
  - unfold updateItemQuantity. by destruct (decide (quantity ≤ 0)).
  - unfold createOrder.
    destruct ty; by destruct (decide (length (cart s) = 0%nat)).
  - unfold updateOrderStatus.
    destruct (findOrder orderId (orders s)) as [o|]; [|by destruct st].
    destruct st; simpl;
      try (rewrite decide_False by (by intros [? _])); try done.
    by destruct (decide (Served = Served ∧ Order.type o = DineIn)).
Qed.

Lemma step_orders_wellformed (a : Action) (s : State) :
  NoDup (CartItem.id <$> cart s) →
  Forall (λ e, 0 < CartItem.quantity e) (cart s) →
  Forall (λ o, Order.items o ≠ []
               ∧ NoDup (CartItem.id <$> Order.items o)
               ∧ Forall (λ e, 0 < CartItem.quantity e) (Order.items o))
         (orders s) →
  Forall (λ o, Order.items o ≠ []
               ∧ NoDup (CartItem.id <$> Order.items o)
               ∧ Forall (λ e, 0 < CartItem.quantity e) (Order.items o))
         (orders (step a s)).
Proof.
  intros Hnd Hpos Hs. destruct a; try done.
  - simpl. unfold updateItemQuantity. by destruct (decide (quantity ≤ 0)).
  - simpl. unfold createOrder.
    destruct (decide (length (cart s) = 0%nat)) as [|Hne]; [done|].
    assert (Forall (λ o, Order.items o ≠ []
               ∧ NoDup (CartItem.id <$> Order.items o)
               ∧ Forall (λ e, 0 < CartItem.quantity e) (Order.items o))
              (orders s ++ [newOrder s env tableId ty])).
    { apply Forall_app. split; [done|]. apply Forall_singleton. simpl.
      split; [|done]. intros Hnil. by rewrite Hnil in Hne. }
    by destruct (decide (ty = DineIn)).
  - rewrite updateOrderStatus_orders. by apply mapWhere_Forall.
  - simpl. by apply mapWhere_Forall.
Qed.

(** X13.  With integer quantities, as everywhere here: in every reachable
    state every order has at least one item, no two of its items share an
    id, and each of its items has a quantity of at least one.
    [createOrder] refuses an empty cart and copies a cart that has these
    properties. *)
Theorem reachable_orders_wellformed (initialTables : list Table.t) (s : State) :
  reachable initialTables s →
  Forall (λ o, Order.items o ≠ []
               ∧ NoDup (CartItem.id <$> Order.items o)
               ∧ Forall (λ e, 1 ≤ CartItem.quantity e) (Order.items o))
         (orders s).
Proof.
  intros Hr.
  apply (Forall_impl
    (λ o, Order.items o ≠ []
          ∧ NoDup (CartItem.id <$> Order.items o)
          ∧ Forall (λ e, 0 < CartItem.quantity e) (Order.items o))).
  2:{ intros o (H1 & H2 & H3). split; [done|]. split; [done|].
      eapply Forall_impl; [exact H3|]. intros e He. simpl in *. lia. }
  assert (Forall (λ e, 0 < CartItem.quantity e) (cart s)
          ∧ Forall (λ o, Order.items o ≠ []
               ∧ NoDup (CartItem.id <$> Order.items o)
               ∧ Forall (λ e, 0 < CartItem.quantity e) (Order.items o))
              (orders s)) as [_ H]; [|exact H].
  induction Hr as [|a s Hr [IHc IHo]]; [by split; apply Forall_nil|].
  split; [by apply step_cart_positive|].
  apply step_orders_wellformed; [|done|done].
  by eapply reachable_cart_NoDup.
Qed.

(** ** The id of a new order *)

Lemma three_digits (n : Z) :
  100 ≤ n ≤ 999 → String.length (numberToString n) = 3%nat.
Proof.
  intros Hn.
  assert (forallb (λ k, Nat.eqb (String.length
                     (numberToString (100 + Z.of_nat k))) 3)
                  (seq 0 900) = true) as Hall by (by vm_compute).
  rewrite forallb_forall in Hall.
  specialize (Hall (Z.to_nat (n - 100))).
  rewrite Z2Nat.id in Hall by lia.
  replace (100 + (n - 100)) with n in Hall by lia.
  apply Nat.eqb_eq, Hall, in_seq. lia.
Qed.

Lemma Qfloor_draw (r : Q) :
  (0 <= r)%Q → (r <= 1 - (1 # 2 ^ 53))%Q →
  100 ≤ Qfloor (nearestDouble (100 + nearestDouble (r * 900))) ≤ 999.
Proof.
  intros H0 H1.
  assert (r * 900 <= (1 - (1 # 2 ^ 53)) * 900)%Q as Hx
    by (apply Qmult_le_compat_r; [exact H1|by vm_compute]).
  assert (r <= 1)%Q as Hr1
    by (eapply Qle_trans; [exact H1|by vm_compute]).
  clear H1.
  assert (0 <= nearestDouble (r * 900))%Q as Hp0
    by (apply nearestDouble_nonneg; clear Hx; lra).
  assert (nearestDouble (r * 900) <= (900 * 2 ^ 43 - 1) # 2 ^ 43)%Q as Hp1.
  { apply nearestDouble_upper; [clear Hx; lra|clear Hx; lra|lia|].
    eapply Qle_lt_trans; [exact Hx|]. reflexivity. }
  clear Hx. set (p := nearestDouble (r * 900)) in *.
  assert (100 + p <= 100 + ((900 * 2 ^ 43 - 1) # 2 ^ 43))%Q as Hy
    by (apply Qplus_le_r, Hp1).
  clear Hp1.
  assert (100 <= nearestDouble (100 + p))%Q as Hq0.
  { apply (nearestDouble_lower _ 100);
      [lia|change (100 <= 100 + p)%Q; clear Hy; lra|].
    eapply Qle_lt_trans; [exact Hy|]. reflexivity. }
  assert (nearestDouble (100 + p) <= (1000 * 2 ^ 43 - 1) # 2 ^ 43)%Q as Hq1.
  { apply nearestDouble_upper; [clear Hy; lra| |lia|].
    - eapply Qle_lt_trans; [exact Hy|]. reflexivity.
    - eapply Qle_lt_trans; [exact Hy|]. reflexivity. }
  split.
  - apply Qfloor_resp_le in Hq0. exact Hq0.
  - assert (Qfloor (nearestDouble (100 + p)) < 1000); [|lia].
    rewrite Zlt_Qlt. eapply Qle_lt_trans; [apply Qfloor_le|].
    eapply Qle_lt_trans; [exact Hq1|]. reflexivity.
Qed.

(** X14.  For a draw in the range of [Math.random()], a double from 0 up to
    but not reaching 1 and so at most [1 - 2^-53], the id of the new order,
    with the product and the sum rounded as doubles, is ["#"] followed by the
    decimal digits of an integer from 100 to 999: four characters in all. *)
Theorem newOrderId_range (env : Env) :
  (0 <= random env)%Q → (random env <= 1 - (1 # 2 ^ 53))%Q →
  ∃ n, 100 ≤ n ≤ 999
       ∧ newOrderId env = String.append "#" (numberToString n)
       ∧ String.length (newOrderId env) = 4%nat.
Proof.
  intros H0 H1.
  exists (Qfloor (nearestDouble (100 + nearestDouble (random env * 900)))).
  pose proof (Qfloor_draw (random env) H0 H1) as Hn.
  split; [exact Hn|]. split; [done|].
  unfold newOrderId.
  change (S (String.length
    (numberToString
       (Qfloor (nearestDouble (100 + nearestDouble (random env * 900))))))
    = 4%nat).
  by rewrite three_digits.
Qed.

(** ** Creating an order and serving it *)

Lemma findOrder_app_new (orderId : string) (l : list Order.t) (o : Order.t) :
  (∀ o', o' ∈ l → Order.id o' ≠ orderId) → Order.id o = orderId →
  findOrder orderId (l ++ [o]) = Some o.
Proof.
  intros Habs Hid. apply findOrder_Some. exists (length l).
  split; [|split; [done|]].
  - by rewrite lookup_app_r, Nat.sub_diag by lia.
  - intros j o' Hj Hlt. rewrite lookup_app_l in Hj by done.
    apply Habs. apply list_elem_of_lookup. eauto.
Qed.

Lemma updateOrderStatus_view (view s : State) (orderId : string)
    (st : OrderStatus) :
  orders (updateOrderStatus view orderId st s)
  = mapWhere (λ order, Order.id order = orderId)
             (λ order, Order.with_status order st) (orders s)
  ∧ cart (updateOrderStatus view orderId st s) = cart s.
Proof.
  unfold updateOrderStatus.
  destruct (findOrder orderId (orders view)) as [o|]; [|done].
  by destruct (decide (st = Served ∧ Order.type o = DineIn)).
Qed.

(** X15.  Creating an order under an id that no order has yet and then
    setting that id to Served: the order list has grown by that one order,
    now Served, and the cart is empty.  What happens to the tables depends on
    the render the second call is made from.  From a render that shows the
    new order: for a dine-in order the tables end up as a plain
    [updateTableStatus(tableId, 'Available')] on the tables before would
    leave them, so a table of that id that another order had reserved is
    freed as well, and for a take-away order they are as they were before.
    From the render [createOrder] was called from, whose order list does not
    have the order yet: the tables stay as [createOrder] left them, the table
    of a dine-in order Reserved. *)
Theorem createOrder_then_served (s view : State) (env : Env)
    (tableId : string) (ty : OrderType) :
  cart s ≠ [] →
  (∀ o, o ∈ orders s → Order.id o ≠ newOrderId env) →
  let s1 := step (CreateOrder env tableId ty) s in
  let s2 := call view (UpdateOrderStatus (newOrderId env) Served) s1 in
  orders s2 = orders s ++
    [Order.mk (newOrderId env) tableId (now env) (cart s) Served ty 0 ""]
  ∧ cart s2 = []
  ∧ (orders view = orders s1 →
     tables s2 = match ty with
                 | DineIn => tables (step (UpdateTableStatus tableId Available) s)
                 | TakeAway => tables s
                 end)
  ∧ (orders view = orders s →
     tables s2 = tables s1
     ∧ ∀ t, t ∈ tables s2 → Table.id t = tableId → ty = DineIn →
            Table.status t = Reserved).
Proof.
  intros Hne Hfresh s1 s2. subst s1 s2.
  cbn [call].
  destruct (updateOrderStatus_view view
              (step (CreateOrder env tableId ty) s) (newOrderId env) Served)
    as [-> ->].
  assert (orders (step (CreateOrder env tableId ty) s)
          = orders s ++ [newOrder s env tableId ty]) as Ho.
  { rewrite createOrder_nonempty by done. by destruct (decide (ty = DineIn)). }
  rewrite Ho. split; [|split; [|split]].
  - unfold mapWhere. rewrite fmap_app.
    change ((λ x, if decide (Order.id x = newOrderId env)
                  then Order.with_status x Served else x) <$> orders s)
      with (mapWhere (λ x, Order.id x = newOrderId env)
                     (λ x, Order.with_status x Served) (orders s)).
    rewrite mapWhere_absent by done. simpl. by rewrite decide_True.
  - rewrite createOrder_nonempty by done. by destruct ty.
  - intros Hview. unfold updateOrderStatus. rewrite Hview.
    rewrite (findOrder_app_new (newOrderId env) (orders s)
               (newOrder s env tableId ty) Hfresh eq_refl).
    rewrite createOrder_nonempty by done. destruct ty; simpl.
    + by apply (mapWhere_overwrite (λ table, Table.id table = tableId)).
    + done.
  - intros Hview. unfold updateOrderStatus. rewrite Hview.
    rewrite (proj2 (findOrder_None (newOrderId env) (orders s)) Hfresh).
    split; [done|]. simpl.
    intros t Ht Hid ->.
    change (createOrder s env tableId DineIn s)
      with (step (CreateOrder env tableId DineIn) s) in Ht.
    rewrite createOrder_nonempty in Ht by done.
    rewrite decide_True in Ht by done. simpl in Ht.
    unfold mapWhere in Ht. apply list_elem_of_fmap in Ht as (t0 & -> & _).
    destruct (decide (Table.id t0 = tableId)) as [|Hn]; [done|].
    by destruct Hn.
Qed.

(** ** Padding *)

Lemma string_length_append (a b : string) :
  String.length (String.append a b) = (String.length a + String.length b)%nat.
Proof. induction a as [|c a IH]; simpl; [done|by rewrite IH]. Qed.

Lemma substring_0_length (k : nat) (str : string) :
  (k ≤ String.length str)%nat → String.length (String.substring 0 k str) = k.
Proof.
  revert str. induction k as [|k IH]; intros [|c str] Hk; simpl in *;
    try done; try lia.
  rewrite IH; [done|lia].
Qed.

Lemma repeatString_length (k : nat) (fill : string) :
  String.length (repeatString k fill) = (k * String.length fill)%nat.
Proof.
  induction k as [|k IH]; simpl; [done|].
  by rewrite string_length_append, IH.
Qed.

(** X16.  [padStart] never cuts: the result ends with the string it was
    given.  With a non-empty fill its length is the larger of the asked
    length and the length of the string; with an empty fill, or a string
    that is long enough, the result is the string itself. *)
Theorem padStart_spec (maxLength : nat) (fill str : string) :
  (∃ pre, padStart maxLength fill str = String.append pre str)
  ∧ (fill ≠ EmptyString →
       String.length (padStart maxLength fill str)
       = Nat.max maxLength (String.length str))
  ∧ (fill = EmptyString → padStart maxLength fill str = str)
  ∧ ((maxLength ≤ String.length str)%nat → padStart maxLength fill str = str).
Proof.
  unfold padStart.
  destruct (decide (maxLength ≤ String.length str)%nat) as [Hle|Hgt].
  { split; [by exists EmptyString|]. split; [intros _; lia|done]. }
  destruct (decide (fill = EmptyString)) as [Hf|Hf].
  { split; [by exists EmptyString|]. split; [done|]. split; [done|lia]. }
  split; [by eexists|]. split; [|split; [done|lia]].
  intros _. rewrite string_length_append, substring_0_length; [lia|].
  rewrite repeatString_length. destruct fill; [done|]. simpl. nia.
Qed.

(** ** Table ids *)

Lemma uint_of_string_zeros (k : nat) (str : string) :
  NilEmpty.uint_of_string (String.append (repeatString k "0") str)
  = Nat.iter k Decimal.D0 <$> NilEmpty.uint_of_string str.
Proof.
  induction k as [|k IH].
  - change (NilEmpty.uint_of_string str
            = (λ d, d) <$> NilEmpty.uint_of_string str).
    by destruct (NilEmpty.uint_of_string str).
  - change (uint_of_char (Ascii.Ascii false false false false true true false false)
              (NilEmpty.uint_of_string (String.append (repeatString k "0") str))
            = Nat.iter (S k) Decimal.D0 <$> NilEmpty.uint_of_string str).
    rewrite IH. by destruct (NilEmpty.uint_of_string str).
Qed.

Lemma of_uint_zeros (k : nat) (d : Decimal.uint) :
  N.of_uint (Nat.iter k Decimal.D0 d) = N.of_uint d.
Proof. induction k as [|k IH]; [done|exact IH]. Qed.

Lemma nextTableId_decimal (count : nat) :
  N.of_uint <$> NilEmpty.uint_of_string (nextTableId count)
  = Some (N.of_nat count + 1)%N.
Proof.
  unfold nextTableId.
  destruct (padStart_2_zero (numberToString (Z.of_nat count + 1)))
    as [[k ->] _].
  rewrite uint_of_string_zeros.
  assert (∃ p, Z.of_nat count + 1 = Z.pos p
               ∧ (N.of_nat count + 1)%N = N.pos p) as (p & Hz & Hn).
  { exists (Pos.of_succ_nat count). split; lia. }
  rewrite Hz, Hn. unfold numberToString. simpl.
  assert (NilZero.string_of_uint (Pos.to_uint p)
          = NilEmpty.string_of_uint (Pos.to_uint p)) as ->.
  { pose proof (Unsigned.to_uint_nonnil p). by destruct (Pos.to_uint p). }
  rewrite NilEmpty.usu. simpl.
  by rewrite of_uint_zeros, Unsigned.of_to.
Qed.

Lemma nextTableId_inj : Inj (=) (=) nextTableId.
Proof.
  intros c1 c2 Heq. pose proof (nextTableId_decimal c1) as H1.
  rewrite Heq, nextTableId_decimal in H1. injection H1 as H1. lia.
Qed.

(** X17.  The id that [addTable] computes reads back as the number it was
    made from: parsed as a decimal number, zeros in front included, it is
    the table count plus one.  So different table counts give different
    ids. *)
Theorem nextTableId_parses :
  (∀ view table,
     N.of_uint <$> NilEmpty.uint_of_string (Table.id (newTable view table))
     = Some (N.of_nat (length (tables view)) + 1)%N)
  ∧ (∀ view1 view2 table1 table2,
     Table.id (newTable view1 table1) = Table.id (newTable view2 table2) →
     length (tables view1) = length (tables view2)).
Proof.
  split.
  - intros view table. apply nextTableId_decimal.
  - intros view1 view2 table1 table2 Heq. by apply nextTableId_inj.
Qed.



(** ** Calls made from one render

    A handler that makes two calls before the next render runs both against
    the closures of the same render: the setters see the result of the first
    call, what the closures read does not. *)

(** X19.  Two [addTable] calls from one render give both new tables the same
    id, the one made from the table count of that render: the table list
    ends up with an id twice. *)
Theorem addTable_twice_same_render (view s : State) (table1 table2 : NewTable.t) :
  let s' := addTable view table2 (addTable view table1 s) in
  ∃ t1 t2, tables s' = tables s ++ [t1; t2]
    ∧ Table.id t1 = nextTableId (length (tables view))
    ∧ Table.id t2 = nextTableId (length (tables view))
    ∧ Table.name t1 = NewTable.name table1
    ∧ Table.name t2 = NewTable.name table2
    ∧ ¬ NoDup (Table.id <$> tables s').
Proof.
  cbn zeta. exists (newTable view table1), (newTable view table2). simpl.
  split; [by rewrite <- app_assoc|]. do 4 (split; [done|]).
  rewrite <- app_assoc, fmap_app. intros Hnd.
  apply NoDup_app in Hnd as (_ & _ & Hnd). simpl in Hnd.
  apply NoDup_cons in Hnd as [Hnin _]. apply Hnin. left.
Qed.

(** X20.  [createOrder] called from the render in which [addToCart] was just
    called does not see the added item: the order gets the cart of that
    render, and the cart, the added item with it, is emptied.  If the cart
    of that render was empty no order is made and the item stays in the
    cart. *)
Theorem createOrder_after_addToCart_same_render (s : State) (item : CartItem.t)
    (env : Env) (tableId : string) (ty : OrderType) :
  let s' := createOrder s env tableId ty (addToCart item s) in
  (cart s ≠ [] →
     (∃ o, orders s' = orders s ++ [o] ∧ Order.items o = cart s)
     ∧ cart s' = [])
  ∧ (cart s = [] →
     orders s' = orders s
     ∧ cart s' = [CartItem.mk (CartItem.id item) (CartItem.name item)
                              (CartItem.price item) 1 (CartItem.category item)]).
Proof.
  cbn zeta. unfold createOrder. split.
  - intros Hne. rewrite decide_False by (by destruct (cart s)).
    destruct (decide (ty = DineIn)); simpl; (split; [by eexists|done]).
  - intros Hnil. rewrite decide_True by (by rewrite Hnil). simpl.
    by rewrite Hnil.
Qed.

(** ** Tables and the orders that sit at them *)

(** X21.  Serving one dine-in order frees its table even when another
    dine-in order for the same table is still being processed: after the
    call every table with that id is Available and the other order is still
    there with status Processing. *)
Theorem served_frees_shared_table (s : State) (orderId : string)
    (o1 o2 : Order.t) (j : nat) :
  findOrder orderId (orders s) = Some o1 →
  Order.type o1 = DineIn →
  orders s !! j = Some o2 →
  Order.id o2 ≠ orderId →
  Order.type o2 = DineIn →
  Order.tableId o2 = Order.tableId o1 →
  Order.status o2 = Processing →
  let s' := step (UpdateOrderStatus orderId Served) s in
  orders s' !! j = Some o2
  ∧ (∀ t, t ∈ tables s' → Table.id t = Order.tableId o2 →
       Table.status t = Available).
Proof.
  intros Hf Hty Hj Hid _ Htb _ s'. subst s'.
  rewrite updateOrderStatus_orders,
    (updateOrderStatus_served_tables s orderId o1 Hf), Hty, Htb.
  split; [by apply mapWhere_lookup_miss|].
  intros t Ht Htid. unfold mapWhere in Ht.
  apply list_elem_of_fmap in Ht as (t0 & -> & _).
  destruct (decide (Table.id t0 = Order.tableId o1)) as [|Hn]; [done|].
  by destruct Hn.
Qed.

(** X22.  [createOrder] does not check the table id: with a non-empty cart
    and a table id that no table has, a dine-in order is created all the
    same, carrying that table id, and no table changes. *)
Theorem createOrder_unknown_table (s : State) (env : Env) (tableId : string) :
  cart s ≠ [] →
  (∀ t, t ∈ tables s → Table.id t ≠ tableId) →
  let s' := step (CreateOrder env tableId DineIn) s in
  tables s' = tables s
  ∧ (∃ o, orders s' = orders s ++ [o]
          ∧ Order.tableId o = tableId ∧ Order.type o = DineIn)
  ∧ cart s' = [].
Proof.
  intros Hne Habs s'. subst s'. rewrite createOrder_nonempty by done.
  rewrite decide_True by done. simpl.
  split; [by apply mapWhere_absent|]. split; [by eexists|done].
Qed.

(** ** The further properties on concrete states *)

Lemma soupInCart_no_bread (e : CartItem.t) :
  e ∈ cart soupInCart → CartItem.id e ≠ "i2"%string.
Proof.
  change (e ∈ [soup] → CartItem.id e ≠ "i2"%string).
  intros He. apply list_elem_of_singleton in He. by subst e.
Qed.

Lemma collidingOrders_no_999 (o : Order.t) :
  o ∈ orders collidingOrders → Order.id o ≠ "#999"%string.
Proof.
  change (o ∈ [Order.mk "#550" "01" "12:00" [soup] Processing TakeAway 0 "";
               Order.mk "#550" "02" "12:00" [bread] Processing DineIn 0 ""]
          → Order.id o ≠ "#999"%string).
  intros Ho. apply elem_of_cons in Ho as [->|Ho]; [done|].
  apply list_elem_of_singleton in Ho. by subst o.
Qed.

Lemma removeFromCart_witness :
  step (RemoveFromCart "i2") soupInCart = soupInCart.
Proof.
  destruct (removeFromCart_spec soupInCart "i2") as (_ & _ & _ & Habs & _).
  exact (Habs soupInCart_no_bread).
Defined.

Lemma addToCart_then_removeFromCart_witness :
  step (RemoveFromCart "i2") (step (AddToCart bread) soupInCart) = soupInCart.
Proof.
  destruct (addToCart_then_removeFromCart soupInCart bread) as (_ & Habs).
  exact (Habs soupInCart_no_bread).
Defined.

Lemma reachable_cart_quantities_witness :
  Forall (λ e, 1 ≤ CartItem.quantity e) (cart soupInCart).
Proof.
  apply (reachable_cart_quantities seedTables).
  apply reachable_step, reachable_init.
Defined.

Lemma updateTableStatus_witness :
  step (UpdateTableStatus "07" Reserved) soupInCart = soupInCart.
Proof.
  destruct (updateTableStatus_spec soupInCart "07" Reserved)
    as (_ & _ & _ & Habs & _).
  apply Habs. change (∀ t, t ∈ seedTables → Table.id t ≠ "07"%string).
  intros t Ht. apply elem_of_cons in Ht as [->|Ht]; [done|].
  apply list_elem_of_singleton in Ht. by subst t.
Defined.

Lemma tables_append_only_witness :
  ∃ t', tables (run sameDrawTwice (initialState seedTables)) !! 1%nat = Some t'
        ∧ Table.id t' = "02"%string
        ∧ Table.name t' = "Table 2"%string
        ∧ Table.chairs t' = 2.
Proof.
  exact (tables_append_only sameDrawTwice (initialState seedTables) 1
           (Table.mk "02" "Table 2" 2 Available) eq_refl).
Defined.

Lemma updateOrderStatus_unknown_id_witness :
  step (UpdateOrderStatus "#999" Served) collidingOrders = collidingOrders.
Proof.
  exact (updateOrderStatus_unknown_id collidingOrders "#999" Served
           collidingOrders_no_999).
Defined.

Lemma updateOrderStatus_not_served_witness :
  tables (step (UpdateOrderStatus "#550" Done) collidingOrders)
  = tables collidingOrders.
Proof.
  destruct (updateOrderStatus_not_served collidingOrders "#550" Done
              ltac:(discriminate)) as (Ht & _).
  exact Ht.
Defined.

Lemma assignChef_witness :
  step (AssignChef "#999" "c1") collidingOrders = collidingOrders.
Proof.
  destruct (assignChef_spec collidingOrders "#999" "c1")
    as (_ & _ & _ & Habs & _).
  exact (Habs collidingOrders_no_999).
Defined.

Lemma orders_append_only_witness :
  ∃ o', orders (run [UpdateOrderStatus "#550" Served; AssignChef "#550" "c1";
                     AddToCart broth; ClearCart] collidingOrders) !! 1%nat
        = Some o'
        ∧ Order.id o' = "#550"%string
        ∧ Order.tableId o' = "02"%string
        ∧ Order.items o' = [bread]
        ∧ Order.type o' = DineIn.
Proof.
  exact (orders_append_only
           [UpdateOrderStatus "#550" Served; AssignChef "#550" "c1";
            AddToCart broth; ClearCart] collidingOrders 1
           (Order.mk "#550" "02" "12:00" [bread] Processing DineIn 0 "")
           eq_refl).
Defined.

Lemma reachable_orders_wellformed_witness :
  Forall (λ o, Order.items o ≠ []
               ∧ NoDup (CartItem.id <$> Order.items o)
               ∧ Forall (λ e, 1 ≤ CartItem.quantity e) (Order.items o))
         (orders collidingOrders).
Proof.
  apply (reachable_orders_wellformed seedTables).
  apply run_reachable, reachable_init.
Defined.

Lemma newOrderId_range_witness :
  ∃ n, 100 ≤ n ≤ 999
       ∧ newOrderId noon = String.append "#" (numberToString n)
       ∧ String.length (newOrderId noon) = 4%nat.
Proof.
  apply (newOrderId_range noon); discriminate.
Defined.

Lemma createOrder_then_served_witness :
  Table.status <$>
    tables (call (step (CreateOrder noon "01" DineIn) soupInCart)
              (UpdateOrderStatus "#550" Served)
              (step (CreateOrder noon "01" DineIn) soupInCart))
  = [Available; Available]
  ∧ Table.status <$>
      tables (call soupInCart (UpdateOrderStatus "#550" Served)
                (step (CreateOrder noon "01" DineIn) soupInCart))
    = [Reserved; Available].
Proof.
  assert (cart soupInCart ≠ []) as Hne by discriminate.
  assert (∀ o, o ∈ orders soupInCart → Order.id o ≠ newOrderId noon) as Hfresh
    by (intros o Ho; apply elem_of_nil in Ho; destruct Ho).
  split.
  - destruct (createOrder_then_served soupInCart
                (step (CreateOrder noon "01" DineIn) soupInCart)
                noon "01" DineIn Hne Hfresh) as (_ & _ & Ht & _).
    change (newOrderId noon) with "#550"%string in Ht.
    rewrite (Ht eq_refl). reflexivity.
  - destruct (createOrder_then_served soupInCart soupInCart
                noon "01" DineIn Hne Hfresh) as (_ & _ & _ & Ht).
    change (newOrderId noon) with "#550"%string in Ht.
    destruct (Ht eq_refl) as [-> _]. reflexivity.
Defined.

Lemma padStart_witness :
  String.length (padStart 5 "ab" "x") = 5%nat.
Proof.
  destruct (padStart_spec 5 "ab" "x") as (_ & Hlen & _).
  exact (Hlen ltac:(discriminate)).
Defined.

Lemma nextTableId_parses_witness :
  length (tables soupInCart) = length (tables collidingOrders).
Proof.
  destruct nextTableId_parses as (_ & Hinj).
  exact (Hinj soupInCart collidingOrders (NewTable.mk "T5" 4 Available)
           (NewTable.mk "T6" 2 Reserved) eq_refl).
Defined.


Lemma createOrder_after_addToCart_same_render_witness :
  cart (createOrder soupInCart noon "01" DineIn (addToCart bread soupInCart)) = [].
Proof.
  destruct (createOrder_after_addToCart_same_render soupInCart bread noon
              "01" DineIn) as (Hne & _).
  destruct (Hne ltac:(discriminate)) as (_ & Hc). exact Hc.
Defined.

Lemma served_frees_shared_table_witness :
  orders (step (UpdateOrderStatus "#550" Served) twoDiners) !! 1%nat
  = Some (Order.mk "#325" "01" "12:05" [bread] Processing DineIn 0 "")
  ∧ (∀ t, t ∈ tables (step (UpdateOrderStatus "#550" Served) twoDiners) →
       Table.id t = "01"%string → Table.status t = Available).
Proof.
  exact (served_frees_shared_table twoDiners "#550"
           (Order.mk "#550" "01" "12:00" [soup] Processing DineIn 0 "")
           (Order.mk "#325" "01" "12:05" [bread] Processing DineIn 0 "")
           1 eq_refl eq_refl eq_refl ltac:(discriminate) eq_refl eq_refl
           eq_refl).
Defined.

Lemma createOrder_unknown_table_witness :
  tables (step (CreateOrder noon "07" DineIn) soupInCart) = seedTables.
Proof.
  assert (∀ t, t ∈ tables soupInCart → Table.id t ≠ "07"%string) as Habs.
  { change (∀ t, t ∈ seedTables → Table.id t ≠ "07"%string).
    intros t Ht. apply elem_of_cons in Ht as [->|Ht]; [done|].
    apply list_elem_of_singleton in Ht. by subst t. }
  destruct (createOrder_unknown_table soupInCart noon "07"
              ltac:(discriminate) Habs) as (Ht & _).
  exact Ht.
Defined.
